(** * Search-Engine-Project: the AVL index, its persistence, the query parser
      and the text processor, embedded in Rocq.

    Sources: [searchEngine.cpp] (WordMap, parse, saveMap/loadMap, AVLNode,
    AVLTree) and the text processor header ([TextProcessor]).

    Conventions of the embedding:
    - [std::string] is [string]; [operator<] on strings is the lexicographic
      order on unsigned characters, i.e. [String.compare].
    - [int] heights and counts are [Z].
    - [std::unordered_map<std::string,int>] (a posting map) is an association
      list in the iteration order of the map; the code never relies on that
      order except when it writes the map out.
    - the byte stream of [std::ofstream] is a [list Z] of byte values; the
      host is LP64 little-endian ([size_t] is 8 bytes, [int] is 4 bytes). *)

From Stdlib Require Import String Ascii List ZArith Lia Bool.
From Stdlib Require Import OrderedTypeEx.
From stdpp Require Import base gmap sets strings.
Import ListNotations.

Open Scope Z_scope.

(* ------------------------------------------------------------------ *)
(** ** The AVL tree ([template<typename T> class AVLTree]) *)

Module AVL.

Section Tree.

Variable T : Type.

(** [AVLNode<T>]: key, value, cached height, two children.  A null
    [shared_ptr] is [Leaf]. *)
Inductive avl : Type :=
| Leaf : avl
| Node (left : avl) (key : string) (value : T) (height : Z) (right : avl).

(** [AVLTree::height]: the cached height, 0 for null. *)
Definition height (node : avl) : Z :=
  match node with
  | Leaf => 0
  | Node _ _ _ h _ => h
  end.

(** [AVLTree::getBalance]. *)
Definition getBalance (node : avl) : Z :=
  match node with
  | Leaf => 0
  | Node l _ _ _ r => height l - height r
  end.

(** [AVLTree::rightRotate].  The source dereferences [y->left]; it is only
    called on a node whose left child exists, the other case returns the
    node unchanged. *)
Definition rightRotate (y : avl) : avl :=
  match y with
  | Node (Node xl xk xv _ T2) yk yv _ yr =>
      let y' := Node T2 yk yv (Z.max (height T2) (height yr) + 1) yr in
      Node xl xk xv (Z.max (height xl) (height y') + 1) y'
  | _ => y
  end.

(** [AVLTree::leftRotate]. *)
Definition leftRotate (x : avl) : avl :=
  match x with
  | Node xl xk xv _ (Node T2 yk yv _ yr) =>
      let x' := Node xl xk xv (Z.max (height xl) (height T2) + 1) T2 in
      Node x' yk yv (Z.max (height x') (height yr) + 1) yr
  | _ => x
  end.

(** [key < node->key] and [key > node->key]. *)
Definition key_lt (k1 k2 : string) : bool :=
  match String.compare k1 k2 with Lt => true | _ => false end.
Definition key_gt (k1 k2 : string) : bool :=
  match String.compare k1 k2 with Gt => true | _ => false end.

(** [key < node->left->key] (resp. [>]); the source only evaluates these
    when the child exists (its balance factor is nonzero), [false]
    otherwise. *)
Definition key_lt_child (key : string) (c : avl) : bool :=
  match c with Leaf => false | Node _ k _ _ _ => key_lt key k end.
Definition key_gt_child (key : string) (c : avl) : bool :=
  match c with Leaf => false | Node _ k _ _ _ => key_gt key k end.

(** The tail of [AVLTree::insert] after the recursive call: the height
    update and the four rotation cases, in the source's order. *)
Definition rebalance (node : avl) (key : string) : avl :=
  match node with
  | Leaf => Leaf
  | Node l k v _ r =>
      let node := Node l k v (1 + Z.max (height l) (height r)) r in
      let balance := getBalance node in
      if (1 <? balance) && key_lt_child key l then rightRotate node
      else if (balance <? -1) && key_gt_child key r then leftRotate node
      else if (1 <? balance) && key_gt_child key l then
        rightRotate (Node (leftRotate l) k v (1 + Z.max (height l) (height r)) r)
      else if (balance <? -1) && key_lt_child key r then
        leftRotate (Node l k v (1 + Z.max (height l) (height r)) (rightRotate r))
      else node
  end.

(** [AVLTree::insert(node, key, value)]. *)
Fixpoint insert (node : avl) (key : string) (value : T) : avl :=
  match node with
  | Leaf => Node Leaf key value 1 Leaf
  | Node l k v h r =>
      if key_lt key k then rebalance (Node (insert l key value) k v h r) key
      else if key_gt key k then rebalance (Node l k v h (insert r key value)) key
      else Node l k value h r
  end.

(** [AVLTree::find(node, key)]: the value of the node found, [None] for
    the null pointer. *)
Fixpoint find (node : avl) (key : string) : option T :=
  match node with
  | Leaf => None
  | Node l k v _ r =>
      if String.eqb k key then Some v
      else if key_lt key k then find l key
      else find r key
  end.

(** The public [insert(key, value)] replayed over a sequence of calls,
    starting from the empty tree ([root] is null). *)
Definition insert_all (ops : list (string * T)) : avl :=
  fold_left (fun t kv => insert t (fst kv) (snd kv)) ops Leaf.

(** Height computed from the shape (not the cached field). *)
Fixpoint ht (t : avl) : Z :=
  match t with
  | Leaf => 0
  | Node l _ _ _ r => 1 + Z.max (ht l) (ht r)
  end.

(** Every node: cached height is the real height and the balance factor
    lies in [-1, 1]. *)
Fixpoint balanced (t : avl) : Prop :=
  match t with
  | Leaf => True
  | Node l _ _ h r =>
      balanced l /\ balanced r /\ h = 1 + Z.max (ht l) (ht r) /\
      Z.abs (ht l - ht r) <= 1
  end.

(** Keys of a tree. *)
Fixpoint keys (t : avl) : list string :=
  match t with
  | Leaf => []
  | Node l k _ _ r => keys l ++ k :: keys r
  end.

(** Search-tree order: the in-order keys are strictly increasing. *)
Definition bst (t : avl) : Prop :=
  Sorted.StronglySorted (fun a b => String.compare a b = Lt) (keys t).

(** In-order (key, value) pairs. *)
Fixpoint elements (t : avl) : list (string * T) :=
  match t with
  | Leaf => []
  | Node l k v _ r => elements l ++ (k, v) :: elements r
  end.

(** First binding of [key] in an association list. *)
Fixpoint lookup (key : string) (xs : list (string * T)) : option T :=
  match xs with
  | [] => None
  | (k, v) :: xs' => if String.eqb k key then Some v else lookup key xs'
  end.

(** After an insertion of [k] made a tree one level taller: its root is
    not [k], and the subtree on [k]'s side of the root is the taller one. *)
Definition grown_on (k : string) (t : avl) : Prop :=
  match t with
  | Leaf => False
  | Node l k' _ _ r =>
      (key_lt k k' = true /\ ht l = ht r + 1) \/ (key_gt k k' = true /\ ht r = ht l + 1)
  end.

(** The root's key, if any. *)
Definition root_key (t : avl) : option string :=
  match t with Leaf => None | Node _ k _ _ _ => Some k end.

(** The most recent value given to [key] in a sequence of inserts. *)
Fixpoint last_value (ops : list (string * T)) (key : string) : option T :=
  match ops with
  | [] => None
  | (k, v) :: ops' =>
      match last_value ops' key with
      | Some w => Some w
      | None => if String.eqb k key then Some v else None
      end
  end.

End Tree.

Arguments Leaf {T}.
Arguments Node {T} _ _ _ _ _.
Arguments height {T} _.
Arguments getBalance {T} _.
Arguments rightRotate {T} _.
Arguments leftRotate {T} _.
Arguments key_lt_child {T} _ _.
Arguments key_gt_child {T} _ _.
Arguments rebalance {T} _ _.
Arguments insert {T} _ _ _.
Arguments find {T} _ _.
Arguments insert_all {T} _.
Arguments ht {T} _.
Arguments balanced {T} _.
Arguments keys {T} _.
Arguments bst {T} _.
Arguments elements {T} _.
Arguments lookup {T} _ _.
Arguments last_value {T} _ _.
Arguments grown_on {T} _ _.
Arguments root_key {T} _.

(** The tree with every value erased: keys, cached heights and structure. *)
Fixpoint shape {T : Type} (t : avl T) : avl unit :=
  match t with
  | Leaf => Leaf
  | Node l k _ h r => Node (shape l) k tt h (shape r)
  end.

End AVL.

(* ------------------------------------------------------------------ *)
(** ** Posting maps and their binary encoding ([saveMap] / [loadMap]) *)

Module Persist.

Import AVL.

(** [std::unordered_map<std::string, int>], in iteration order. *)
Definition pmap := list (string * Z).

(** [map[key] = value]: overwrite an existing entry, or add one. *)
Fixpoint pm_set (m : pmap) (k : string) (v : Z) : pmap :=
  match m with
  | [] => [(k, v)]
  | (k', v') :: m' => if String.eqb k' k then (k', v) :: m' else (k', v') :: pm_set m' k v
  end.

(** [map[key]] read for [operator++]: 0 for an absent key. *)
Fixpoint pm_get (m : pmap) (k : string) : Z :=
  match m with
  | [] => 0
  | (k', v') :: m' => if String.eqb k' k then v' else pm_get m' k
  end.

(** [files[filepath]++] (on a 32-bit [int], wrap-around ignored). *)
Definition pm_incr (m : pmap) (k : string) : pmap := pm_set m k (pm_get m k + 1).

(** The object representation of an unsigned [w]-byte integer,
    little-endian; negative [int]s come out in two's complement. *)
Fixpoint le_bytes (w : nat) (n : Z) : list Z :=
  match w with
  | O => []
  | S w' => n mod 256 :: le_bytes w' (n / 256)
  end.

(** Reading [w] bytes back into an unsigned integer. *)
Fixpoint of_le_bytes (bs : list Z) : Z :=
  match bs with
  | [] => 0
  | b :: bs' => b + 256 * of_le_bytes bs'
  end.

(** [out.write(s.c_str(), s.length())]. *)
Definition bytes_of_string (s : string) : list Z :=
  List.map (fun a => Z.of_N (N_of_ascii a)) (list_ascii_of_string s).

Definition string_of_bytes (bs : list Z) : string :=
  string_of_list_ascii (List.map (fun b => ascii_of_N (Z.to_N b)) bs).

Definition sizeof_size_t : nat := 8.
Definition sizeof_int : nat := 4.

(** One iteration of the loop of [saveMap]: key length, key, value. *)
Definition savePosting (p : string * Z) : list Z :=
  le_bytes sizeof_size_t (Z.of_nat (String.length (fst p)))
  ++ bytes_of_string (fst p)
  ++ le_bytes sizeof_int (snd p).

(** [saveMap(map, out)]: the size, then every pair. *)
Definition saveMap (m : pmap) : list Z :=
  le_bytes sizeof_size_t (Z.of_nat (length m)) ++ flat_map savePosting m.

(** [AVLNode::save]: for [T = unordered_map<string,int>], the value only. *)
Definition node_save (n : avl pmap) : list Z :=
  match n with
  | Leaf => []
  | Node _ _ v _ _ => saveMap v
  end.

(** [AVLTree::save(out)]: [if (root) root->save(out)]. *)
Definition tree_save (t : avl pmap) : list Z :=
  match t with
  | Leaf => []
  | Node _ _ _ _ _ => node_save t
  end.

(** Files on disk: name to contents. *)
Definition files := gmap string (list Z).

(** [AVLTree::saveToFile]: the [ofstream] truncates the file and the tree
    writes its bytes. *)
Definition saveToFile (fs : files) (filename : string) (t : avl pmap) : files :=
  <[filename := tree_save t]> fs.

(** An input stream: [None] once it has failed (file missing, short read). *)
Definition stream := option (list Z).

Definition read_bytes (n : nat) (s : stream) : option (list Z * stream) :=
  match s with
  | None => None
  | Some bs => if Nat.leb n (length bs) then Some (firstn n bs, Some (skipn n bs)) else None
  end.

(** A 4-byte [int] from its object representation. *)
Definition int_of_bytes (bs : list Z) : Z :=
  let u := of_le_bytes bs in if u <? 2 ^ 31 then u else u - 2 ^ 32.

(** The loop of [loadMap], [n] iterations.  A read on a failed stream
    leaves its variable indeterminate in the source; this decoder stops at
    the first failed read. *)
Fixpoint loadPostings (n : nat) (s : stream) (m : pmap) : pmap :=
  match n with
  | O => m
  | S n' =>
      match read_bytes sizeof_size_t s with
      | None => m
      | Some (kl, s1) =>
          match read_bytes (Z.to_nat (of_le_bytes kl)) s1 with
          | None => m
          | Some (kb, s2) =>
              match read_bytes sizeof_int s2 with
              | None => m
              | Some (vb, s3) =>
                  loadPostings n' s3 (pm_set m (string_of_bytes kb) (int_of_bytes vb))
              end
          end
      end
  end.

(** [loadMap(map, in)]: read the size, [map.clear()], read the pairs.  The
    second component tells whether an exception escaped (never, for this
    decoder; the results about loading below hold for any node loader).
    A failed read of the size leaves it indeterminate; this decoder takes
    the loop count to be 0 then.  The pairs are kept in the order they are
    read; the iteration order of the reloaded [unordered_map] is
    unspecified, so the results about reloaded maps hold up to permutation. *)
Definition loadMap (s : stream) (m : pmap) : pmap * bool :=
  match read_bytes sizeof_size_t s with
  | None => ([], false)
  | Some (sz, s1) => (loadPostings (Z.to_nat (of_le_bytes sz)) s1 [], false)
  end.

(** The maps [saveMap] can write so that [loadMap] reads them back: keys
    distinct (an [unordered_map] has no duplicate key), every key length and
    the size representable in a [size_t], every value an [int]. *)
Definition posting_ok (p : string * Z) : Prop :=
  Z.of_nat (String.length (fst p)) < 2 ^ 64 /\ - 2 ^ 31 <= snd p < 2 ^ 31.

Definition saveable (m : pmap) : Prop :=
  List.NoDup (List.map fst m) /\ Z.of_nat (length m) < 2 ^ 64 /\ Forall posting_ok m.

(** A tree whose [save] writes a map that [load] can read back. *)
Definition root_saveable (t : avl pmap) : Prop :=
  match t with Leaf => False | Node _ _ v _ _ => saveable v end.

(** [t'] is [t] with at most the entries of its root map reordered. *)
Definition root_perm (t' t : avl pmap) : Prop :=
  match t', t with
  | Leaf, Leaf => True
  | Node l' k' v' h' r', Node l k v h r =>
      l' = l /\ k' = k /\ Permutation v' v /\ h' = h /\ r' = r
  | _, _ => False
  end.

Section Loading.

(** The node loader: new value of the root's map and whether an exception
    escaped from it. *)
Variable node_load : stream -> pmap -> pmap * bool.

(** [AVLTree::load(in)]: [if (root) root->load(in)]. *)
Definition tree_load (s : stream) (t : avl pmap) : avl pmap * bool :=
  match t with
  | Leaf => (Leaf, false)
  | Node l k v h r => let '(v', e) := node_load s v in (Node l k v' h r, e)
  end.

(** [AVLTree::loadFromFile]: an [ifstream] on a missing file is a failed
    stream. *)
Definition loadFromFile (fs : files) (filename : string) (t : avl pmap)
  : avl pmap * bool :=
  tree_load (fs !! filename) t.

End Loading.

End Persist.

(* ------------------------------------------------------------------ *)
(** ** The text processor ([class TextProcessor]) *)

Module Text.

Local Open Scope string_scope.

(** [::tolower] in the "C" locale. *)
Definition tolower (c : ascii) : ascii :=
  let n := nat_of_ascii c in
  if (Nat.leb 65 n && Nat.leb n 90)%bool then ascii_of_nat (n + 32) else c.

(** [std::transform(..., ::tolower)]. *)
Fixpoint lower (s : string) : string :=
  match s with
  | EmptyString => EmptyString
  | String c s' => String (tolower c) (lower s')
  end.

(** The stopword list of the constructor, as written in the source. *)
Definition commonStopwords : list string :=
  ["a"; "about"; "above"; "after"; "again"; "against"; "all"; "am"; "an"; "and"].

(** [isStopword]: exact (case-sensitive) membership. *)
Definition isStopword (word : string) : bool :=
  existsb (String.eqb word) commonStopwords.

(** [str[i]]. *)
Definition char_at (s : string) (i : nat) : ascii :=
  match String.get i s with Some c => c | None => Ascii.zero end.

Definition is_vowel_char (c : ascii) : bool :=
  (Ascii.eqb c "a"%char || Ascii.eqb c "e"%char || Ascii.eqb c "i"%char
   || Ascii.eqb c "o"%char || Ascii.eqb c "u"%char)%bool.

(** [isConsonant(str, i)]. *)
Fixpoint isConsonant (str : string) (i : nat) : bool :=
  let c := char_at str i in
  if is_vowel_char c then false
  else if Ascii.eqb c "y"%char then
    match i with
    | O => true
    | S j => negb (isConsonant str j)
    end
  else true.

(** [measureConsecutiveVC]: the loop over [i] with [m] and [prevC]. *)
Definition measureConsecutiveVC (str : string) : nat :=
  fst (fold_left
         (fun '(m, prevC) i =>
            let isC := isConsonant str i in
            ((if (prevC && negb isC)%bool then S m else m), isC))
         (seq 0 (String.length str)) (O, true)).

(** [hasVowel]. *)
Definition hasVowel (str : string) : bool :=
  existsb (fun i => negb (isConsonant str i)) (seq 0 (String.length str)).

(** [endsWithDoubleConsonant]. *)
Definition endsWithDoubleConsonant (str : string) : bool :=
  let n := String.length str in
  if Nat.ltb n 2 then false
  else (Ascii.eqb (char_at str (n - 1)) (char_at str (n - 2))
        && isConsonant str (n - 1))%bool.

(** [endsWithCVC]. *)
Definition endsWithCVC (str : string) : bool :=
  let n := String.length str in
  if Nat.ltb n 3 then false
  else
    let j := (n - 1)%nat in
    (isConsonant str j && negb (isConsonant str (j - 1)) && isConsonant str (j - 2)
     && negb (Ascii.eqb (char_at str j) "w"%char)
     && negb (Ascii.eqb (char_at str j) "x"%char)
     && negb (Ascii.eqb (char_at str j) "y"%char))%bool.

(** [endsWith(str, suffix)]. *)
Definition endsWith (str suffix : string) : bool :=
  let n := String.length str in
  let k := String.length suffix in
  if Nat.ltb n k then false
  else String.eqb (substring (n - k) k str) suffix.

(** [str.substr(0, len)]. *)
Definition prefix_len (str : string) (len : nat) : string := substring 0 len str.

(** [replaceSuffix(str, suffix, replacement)]. *)
Definition replaceSuffix (str suffix replacement : string) : string :=
  let n := String.length str in
  let k := String.length suffix in
  if (Nat.leb k n && String.eqb (substring (n - k) k str) suffix)%bool
  then prefix_len str (n - k) ++ replacement
  else str.

(** [str.pop_back()]. *)
Definition pop_back (str : string) : string :=
  prefix_len str (String.length str - 1).

(** [step1a]. *)
Definition step1a (str : string) : string :=
  if endsWith str "sses" then replaceSuffix str "sses" "ss"
  else if endsWith str "ies" then replaceSuffix str "ies" "i"
  else if endsWith str "ss" then str
  else if endsWith str "s" then pop_back str
  else str.

(** The part of [step1b] after "ed" or "ing" has been removed. *)
Definition step1b_fix (str : string) : string :=
  if (endsWith str "at" || endsWith str "bl" || endsWith str "iz")%bool then str ++ "e"
  else if (endsWithDoubleConsonant str && negb (endsWith str "l")
           && negb (endsWith str "s") && negb (endsWith str "z"))%bool then pop_back str
  else if (Nat.eqb (measureConsecutiveVC str) 1 && endsWithCVC str)%bool then str ++ "e"
  else str.

(** [step1b]. *)
Definition step1b (str : string) : string :=
  let n := String.length str in
  if endsWith str "eed" then
    (if Nat.ltb 0 (measureConsecutiveVC (prefix_len str (n - 3)))
     then replaceSuffix str "eed" "ee" else str)
  else if ((endsWith str "ed" && hasVowel (prefix_len str (n - 2)))
           || (endsWith str "ing" && hasVowel (prefix_len str (n - 3))))%bool then
    let str' := if endsWith str "ed" then replaceSuffix str "ed" ""
                else replaceSuffix str "ing" "" in
    step1b_fix str'
  else str.

(** [step1c]: [str[str.length()-1] = 'i']. *)
Definition step1c (str : string) : string :=
  let n := String.length str in
  if (endsWith str "y" && hasVowel (prefix_len str (n - 1)))%bool
  then prefix_len str (n - 1) ++ "i"
  else str.

(** [stem(word)]. *)
Definition stem (word : string) : string :=
  if Nat.leb (String.length word) 2 then word
  else step1c (step1b (step1a (lower word))).

(** [processWord(word)]. *)
Definition processWord (word : string) : string :=
  if isStopword word then "" else stem word.

End Text.

(* ------------------------------------------------------------------ *)
(** ** The index manager ([class SearchEngine::WordMap]) *)

Module WordMap.

Import AVL Persist.

Record WordMap := mkWordMap {
  orgIndex : avl pmap;
  nameIndex : avl pmap;
  wordIndex : avl pmap
}.

Definition empty_wordmap : WordMap := mkWordMap Leaf Leaf Leaf.

(** [index.find(key, files)]: copy the stored map into [files] when the key
    is present, otherwise [files] becomes the empty map. *)
Definition find_files (idx : avl pmap) (key : string) : pmap :=
  match find idx key with Some m => m | None => [] end.

(** [associateOrg]. *)
Definition associateOrg (wm : WordMap) (org filepath : string) : WordMap :=
  let files := pm_incr (find_files (orgIndex wm) org) filepath in
  mkWordMap (insert (orgIndex wm) org files) (nameIndex wm) (wordIndex wm).

(** [associateName]. *)
Definition associateName (wm : WordMap) (name filepath : string) : WordMap :=
  let files := pm_incr (find_files (nameIndex wm) name) filepath in
  mkWordMap (orgIndex wm) (insert (nameIndex wm) name files) (wordIndex wm).

(** [associateWord]: empty words are skipped. *)
Definition associateWord (wm : WordMap) (word filepath : string) : WordMap :=
  if String.eqb word EmptyString then wm
  else
    let files := pm_incr (find_files (wordIndex wm) word) filepath in
    mkWordMap (orgIndex wm) (nameIndex wm) (insert (wordIndex wm) word files).

(** [getFilesByOrg], [getFilesByName], [getFilesByWord]. *)
Definition getFilesByOrg (wm : WordMap) (org : string) : pmap := find_files (orgIndex wm) org.
Definition getFilesByName (wm : WordMap) (name : string) : pmap := find_files (nameIndex wm) name.
Definition getFilesByWord (wm : WordMap) (word : string) : pmap := find_files (wordIndex wm) word.

(** [getOtherFilesByWord]: [return getFilesByWord(word);]. *)
Definition getOtherFilesByWord (wm : WordMap) (word : string) : pmap := getFilesByWord wm word.

(** [WordMap::save]: the three trees, each to its own file. *)
Definition save (fs : files) (osavePath nsavePath wsavePath : string) (wm : WordMap) : files :=
  let fs := saveToFile fs osavePath (orgIndex wm) in
  let fs := saveToFile fs nsavePath (nameIndex wm) in
  saveToFile fs wsavePath (wordIndex wm).

(** [WordMap::load]: the three loads in a [try] block, [true] at its end,
    [false] from the [catch].  The calls [orgIndex.load(osavePath)] etc.
    name a file, so they are the tree's [loadFromFile].  The indices are
    members: a load that threw leaves the earlier ones loaded. *)
Definition load (node_load : stream -> pmap -> pmap * bool)
    (fs : files) (osavePath nsavePath wsavePath : string) (wm : WordMap)
  : bool * WordMap :=
  let '(o, eo) := loadFromFile node_load fs osavePath (orgIndex wm) in
  if eo then (false, mkWordMap o (nameIndex wm) (wordIndex wm)) else
  let '(n, en) := loadFromFile node_load fs nsavePath (nameIndex wm) in
  if en then (false, mkWordMap o n (wordIndex wm)) else
  let '(w, ew) := loadFromFile node_load fs wsavePath (wordIndex wm) in
  if ew then (false, mkWordMap o n w) else
  (true, mkWordMap o n w).

(** The body-word loop of [buildFromScratch] for one file: every word of
    [words[2]] goes through [processWord] and, when non-empty, into the
    word index. *)
Definition index_body_words (wm : WordMap) (filePath : string) (words : list string)
  : WordMap :=
  fold_left (fun wm word =>
               let processedWord := Text.processWord word in
               if negb (String.eqb processedWord EmptyString)
               then associateWord wm processedWord filePath else wm)
            words wm.

(** A regular file met by the directory walk of [buildFromScratch]: its
    path and [getRelevantData(filePath)], i.e. [words[0]] (organizations),
    [words[1]] (person names) and [words[2]] (body words), each in the
    iteration order of its [unordered_set]. *)
Record FileData := mkFileData {
  filePath : string;
  orgWords : list string;
  nameWords : list string;
  bodyWords : list string
}.

(** The organization loop: lowercase, then [associateOrg]. *)
Definition index_orgs (wm : WordMap) (filePath : string) (words : list string) : WordMap :=
  fold_left (fun wm word => associateOrg wm (Text.lower word) filePath) words wm.

(** The person-name loop: lowercase, then [associateName]. *)
Definition index_names (wm : WordMap) (filePath : string) (words : list string) : WordMap :=
  fold_left (fun wm word => associateName wm (Text.lower word) filePath) words wm.

(** The body of the directory loop for one regular file. *)
Definition index_file (wm : WordMap) (d : FileData) : WordMap :=
  let wm := index_orgs wm (filePath d) (orgWords d) in
  let wm := index_names wm (filePath d) (nameWords d) in
  index_body_words wm (filePath d) (bodyWords d).

(** [buildFromScratch(folderPath)] on the regular files of the walk, in
    the order of [recursive_directory_iterator] (timing output left out). *)
Definition buildFromScratch (wm : WordMap) (entries : list FileData) : WordMap :=
  fold_left index_file entries wm.

(** How many of [xs] [norm] maps to [key]. *)
Definition occurrences (norm : string -> string) (key : string) (xs : list string) : Z :=
  Z.of_nat (length (List.filter (fun x => String.eqb (norm x) key) xs)).

(** Over the files of a walk, how many words selected by [sel] in the files
    with path [f] [norm] maps to [key]. *)
Definition file_count (sel : FileData -> list string) (norm : string -> string)
    (key f : string) (ds : list FileData) : Z :=
  fold_right (fun d acc =>
                (if String.eqb (filePath d) f then occurrences norm key (sel d) else 0) + acc)
             0 ds.

(** The invariant that [AVLTree::insert] keeps in each of the three
    indices: cached heights right, balance factors in [-1, 1], keys in
    search-tree order. *)
Definition index_ok (wm : WordMap) : Prop :=
  balanced (orgIndex wm) /\ bst (orgIndex wm) /\
  balanced (nameIndex wm) /\ bst (nameIndex wm) /\
  balanced (wordIndex wm) /\ bst (wordIndex wm).

(** The shape of the keys [buildFromScratch] stores: organization and
    person keys are lowercase, word keys are non-empty. *)
Definition keys_shape (wm : WordMap) : Prop :=
  (forall k, In k (keys (orgIndex wm)) -> Text.lower k = k) /\
  (forall k, In k (keys (nameIndex wm)) -> Text.lower k = k) /\
  (forall k, In k (keys (wordIndex wm)) -> k <> EmptyString).

End WordMap.

(* ------------------------------------------------------------------ *)
(** ** Query parsing ([SearchEngine::parse]) *)

Module Parse.

Local Open Scope string_scope.

(** [isspace] in the "C" locale: space, \t, \n, \v, \f, \r. *)
Definition is_space (c : ascii) : bool :=
  let n := nat_of_ascii c in (Nat.eqb n 32 || (Nat.leb 9 n && Nat.leb n 13))%bool.

(** Successive [iss >> term] extractions: skip white space, read up to the
    next white space; [cur] is the token being read. *)
Fixpoint split_ws_from (s cur : string) : list string :=
  match s with
  | EmptyString => if String.eqb cur "" then [] else [cur]
  | String c s' =>
      if is_space c then
        (if String.eqb cur "" then split_ws_from s' "" else cur :: split_ws_from s' "")
      else split_ws_from s' (cur ++ String c "")
  end.

Definition split_ws (s : string) : list string := split_ws_from s "".

(** [term.rfind(p, 0) == 0]. *)
Definition starts_with (p term : string) : bool := String.prefix p term.

(** The body of the [while (iss >> term)] loop. *)
Definition parse_step (terms : gset string) (term0 : string) : gset string :=
  let term := Text.lower term0 in
  if (starts_with "org:" term || starts_with "person:" term)%bool then {[ term ]} ∪ terms
  else if Ascii.eqb (Text.char_at term 0) "-"%char then
    let processedTerm := "-" ++ Text.processWord (substring 1 (String.length term - 1) term) in
    if Nat.ltb 1 (String.length processedTerm) then {[ processedTerm ]} ∪ terms else terms
  else
    let processedTerm := Text.processWord term in
    if negb (String.eqb processedTerm "") then {[ processedTerm ]} ∪ terms else terms.

(** [SearchEngine::parse]. *)
Definition parse (searchTerms : string) : gset string :=
  fold_left parse_step (split_ws searchTerms) ∅.

(** The parse rule as the specification words it: case-fold each token,
    then classify it; the result is the set of the kept terms. *)
Definition classify_spec (tok : string) : option string :=
  let t := Text.lower tok in
  if (String.prefix "org:" t || String.prefix "person:" t)%bool then Some t
  else match t with
       | String c rest =>
           if Ascii.eqb c "-"%char then
             let p := Text.processWord rest in
             if String.eqb p "" then None else Some ("-" ++ p)
           else
             let p := Text.processWord t in
             if String.eqb p "" then None else Some p
       | EmptyString =>
           let p := Text.processWord t in
           if String.eqb p "" then None else Some p
       end.

Definition parse_spec (searchTerms : string) : gset string :=
  list_to_set (omap classify_spec (split_ws searchTerms)).

(** A token without white space. *)
Definition no_space (t : string) : Prop :=
  Forall (fun c => is_space c = false) (list_ascii_of_string t).

End Parse.

(* ================================================================== *)
(** * Proofs *)

Module AVLFacts.

Import AVL.

(** *** String order *)

Lemma cmp_lt_trans (a b c : string) :
  String.compare a b = Lt -> String.compare b c = Lt -> String.compare a c = Lt.
Proof.
  intros H1 H2.
  apply String_as_OT.cmp_lt in H1, H2. apply String_as_OT.cmp_lt.
  eapply String_as_OT.lt_trans; eassumption.
Qed.

Lemma cmp_gt_lt (a b : string) : String.compare a b = Gt <-> String.compare b a = Lt.
Proof.
  rewrite (String.compare_antisym a b). destruct (String.compare b a); simpl; split; congruence.
Qed.

Lemma cmp_eq_iff (a b : string) : String.compare a b = Eq <-> a = b.
Proof. apply String_as_OT.cmp_eq. Qed.

Lemma cmp_refl (a : string) : String.compare a a = Eq.
Proof. apply cmp_eq_iff. reflexivity. Qed.

Lemma key_lt_true (a b : string) : key_lt a b = true <-> String.compare a b = Lt.
Proof. unfold key_lt. destruct (String.compare a b); split; congruence. Qed.

Lemma key_gt_true (a b : string) : key_gt a b = true <-> String.compare a b = Gt.
Proof. unfold key_gt. destruct (String.compare a b); split; congruence. Qed.

Section Balance.

Variable T : Type.
Implicit Types t l r a b c d : avl T.

(** *** Heights *)

Lemma ht_nonneg t : 0 <= ht t.
Proof. induction t; simpl; lia. Qed.

Lemma height_ht t : balanced t -> height t = ht t.
Proof. destruct t; simpl; intuition. Qed.

Ltac bal_simpl :=
  repeat match goal with
  | H : balanced (Node _ _ _ _ _) |- _ => simpl in H; destruct H as (? & ? & ? & ?)
  end.

Ltac heights :=
  repeat match goal with
  | H : balanced ?t |- _ =>
      lazymatch goal with
      | _ : height t = ht t |- _ => fail
      | _ => pose proof (height_ht t H); pose proof (ht_nonneg t)
      end
  end.

(** *** The four rotation cases *)

Lemma rot_LL a b r k1 v1 h1 k0 v0 h0 :
  balanced a -> balanced b -> balanced r ->
  ht a = ht r + 1 -> ht b = ht r ->
  let t' := rightRotate (Node (Node a k1 v1 h1 b) k0 v0 h0 r) in
  balanced t' /\ ht t' = ht r + 2.
Proof.
  intros Ha Hb Hr E1 E2. heights. simpl. rewrite !height_ht by assumption.
  repeat split; try assumption; lia.
Qed.

Lemma rot_RR a b l k1 v1 h1 k0 v0 h0 :
  balanced a -> balanced b -> balanced l ->
  ht b = ht l + 1 -> ht a = ht l ->
  let t' := leftRotate (Node l k0 v0 h0 (Node a k1 v1 h1 b)) in
  balanced t' /\ ht t' = ht l + 2.
Proof.
  intros Ha Hb Hl E1 E2. heights. simpl. rewrite !height_ht by assumption.
  repeat split; try assumption; lia.
Qed.

Lemma rot_LR a c d r k1 v1 h1 k2 v2 h2 k0 v0 h0 :
  balanced a -> balanced (Node c k2 v2 h2 d) -> balanced r ->
  ht a = ht r -> ht (Node c k2 v2 h2 d) = ht r + 1 ->
  let t' := rightRotate (Node (leftRotate (Node a k1 v1 h1 (Node c k2 v2 h2 d))) k0 v0 h0 r) in
  balanced t' /\ ht t' = ht r + 2.
Proof.
  intros Ha Hb Hr E1 E2. bal_simpl. heights. simpl in E2 |- *.
  rewrite !height_ht by assumption.
  repeat split; try assumption; lia.
Qed.

Lemma rot_RL a c d l k1 v1 h1 k2 v2 h2 k0 v0 h0 :
  balanced a -> balanced (Node c k2 v2 h2 d) -> balanced l ->
  ht a = ht l -> ht (Node c k2 v2 h2 d) = ht l + 1 ->
  let t' := leftRotate (Node l k0 v0 h0 (rightRotate (Node (Node c k2 v2 h2 d) k1 v1 h1 a))) in
  balanced t' /\ ht t' = ht l + 2.
Proof.
  intros Ha Hb Hl E1 E2. bal_simpl. heights. simpl in E2 |- *.
  rewrite !height_ht by assumption.
  repeat split; try assumption; lia.
Qed.

Lemma key_lt_gt_false (a b : string) : key_gt a b = true -> key_lt a b = false.
Proof. unfold key_lt, key_gt. destruct (String.compare a b); congruence. Qed.

Lemma key_gt_lt_false (a b : string) : key_lt a b = true -> key_gt a b = false.
Proof. unfold key_lt, key_gt. destruct (String.compare a b); congruence. Qed.

Lemma insert_balanced t k v :
  balanced t ->
  balanced (insert t k v) /\
  (ht (insert t k v) = ht t \/ ht (insert t k v) = ht t + 1) /\
  (ht (insert t k v) = ht t + 1 -> t = Leaf \/ grown_on k (insert t k v)).
Proof.
  induction t as [|l IHl k0 v0 h r IHr]; intros Hb.
  - simpl. split; [repeat split; lia|]. split; [right; lia|]. auto.
  - destruct Hb as (Hl & Hr & Hh & Hab). simpl insert.
    pose proof (ht_nonneg l). pose proof (ht_nonneg r).
    destruct (key_lt k k0) eqn:Elt.
    + destruct (IHl Hl) as (Hb' & Hh' & Hg').
      unfold rebalance. simpl getBalance.
      rewrite (height_ht _ Hb'), (height_ht _ Hr).
      destruct (Z.ltb_spec 1 (ht (insert l k v) - ht r)) as [Hgt|Hle].
      * assert (Hgrow : ht (insert l k v) = ht l + 1) by lia.
        destruct (Hg' Hgrow) as [->|Hgo]; [simpl in *; lia|].
        destruct (insert l k v) as [|a k1 v1 h1 b] eqn:El'; [contradiction|].
        simpl in Hgo. destruct Hb' as (Ha & Hbb & Hh1 & Hab1).
        destruct Hgo as [(E1 & E2)|(E1 & E2)].
        -- simpl key_lt_child. rewrite E1. simpl andb. cbv zeta.
           simpl in Hgrow.
           destruct (rot_LL a b r k1 v1 h1 k0 v0 (1 + Z.max (height (Node a k1 v1 h1 b)) (ht r)))
             as (Hb2 & Hh2); try assumption; try lia.
           cbn [rightRotate leftRotate height] in Hb2, Hh2 |- *. rewrite ?(height_ht _ Hr), ?(height_ht _ Hl) in Hb2, Hh2.
           try (rewrite (proj2 (Z.ltb_ge _ (-1))) by (cbn [ht] in *; lia); cbn [andb]).
           split; [exact Hb2|]. rewrite Hh2. split; [left; simpl; lia|]. simpl; lia.
        -- simpl key_lt_child. rewrite (key_lt_gt_false _ _ E1). simpl andb.
           destruct (Z.ltb_spec (ht (Node a k1 v1 h1 b) - ht r) (-1)); [lia|]. simpl andb.
           simpl key_gt_child. rewrite E1. simpl andb. cbv zeta.
           simpl in Hgrow.
           destruct b as [|c k2 v2 h2 d]; [simpl in E2; pose proof (ht_nonneg a); lia|].
           destruct (rot_LR a c d r k1 v1 h1 k2 v2 h2 k0 v0 (1 + Z.max (height (Node a k1 v1 h1 (Node c k2 v2 h2 d))) (ht r)))
             as (Hb2 & Hh2); try assumption; try lia.
           cbn [rightRotate leftRotate height] in Hb2, Hh2 |- *. rewrite ?(height_ht _ Hr), ?(height_ht _ Hl) in Hb2, Hh2.
           try (rewrite (proj2 (Z.ltb_ge _ (-1))) by (cbn [ht] in *; lia); cbn [andb]).
           split; [exact Hb2|]. rewrite Hh2. split; [left; simpl; lia|]. simpl; lia.
      * destruct (Z.ltb_spec (ht (insert l k v) - ht r) (-1)); [lia|].
        rewrite !andb_false_l. simpl.
        split; [repeat split; try assumption; rewrite ?(height_ht _ Hb'), ?(height_ht _ Hr); lia|].
        split; [lia|]. intros Hgrow. right.
        destruct (insert l k v); simpl in *; [lia|].
        left. split; [assumption|lia].
    + destruct (key_gt k k0) eqn:Egt.
      * destruct (IHr Hr) as (Hb' & Hh' & Hg').
        unfold rebalance. simpl getBalance.
        rewrite (height_ht _ Hb'), (height_ht _ Hl).
        destruct (Z.ltb_spec 1 (ht l - ht (insert r k v))) as [Hgt|Hle]; [lia|].
        simpl andb.
        destruct (Z.ltb_spec (ht l - ht (insert r k v)) (-1)) as [Hlt|Hge].
        -- assert (Hgrow : ht (insert r k v) = ht r + 1) by lia.
           destruct (Hg' Hgrow) as [->|Hgo]; [simpl in *; lia|].
           destruct (insert r k v) as [|a k1 v1 h1 b] eqn:Er'; [contradiction|].
           simpl in Hgo. destruct Hb' as (Ha & Hbb & Hh1 & Hab1).
           destruct Hgo as [(E1 & E2)|(E1 & E2)].
           ++ simpl key_gt_child. rewrite (key_gt_lt_false _ _ E1). simpl andb.
              simpl key_lt_child. rewrite E1. simpl andb. cbv zeta.
              simpl in Hgrow.
              destruct a as [|c k2 v2 h2 d]; [simpl in E2; pose proof (ht_nonneg b); lia|].
              destruct (rot_RL b c d l k1 v1 h1 k2 v2 h2 k0 v0 (1 + Z.max (ht l) (height (Node (Node c k2 v2 h2 d) k1 v1 h1 b))))
                as (Hb2 & Hh2); try assumption; try lia.
              cbn [rightRotate leftRotate height] in Hb2, Hh2 |- *. rewrite ?(height_ht _ Hr), ?(height_ht _ Hl) in Hb2, Hh2.
           try (rewrite (proj2 (Z.ltb_ge _ (-1))) by (cbn [ht] in *; lia); cbn [andb]).
              split; [exact Hb2|]. rewrite Hh2. split; [left; simpl; lia|]. simpl; lia.
           ++ simpl key_gt_child. rewrite E1. simpl andb. cbv zeta.
              simpl in Hgrow.
              destruct (rot_RR a b l k1 v1 h1 k0 v0 (1 + Z.max (ht l) (height (Node a k1 v1 h1 b))))
                as (Hb2 & Hh2); try assumption; try lia.
              cbn [rightRotate leftRotate height] in Hb2, Hh2 |- *. rewrite ?(height_ht _ Hr), ?(height_ht _ Hl) in Hb2, Hh2.
           try (rewrite (proj2 (Z.ltb_ge _ (-1))) by (cbn [ht] in *; lia); cbn [andb]).
              split; [exact Hb2|]. rewrite Hh2. split; [left; simpl; lia|]. simpl; lia.
        -- rewrite !andb_false_l. simpl.
           split; [repeat split; try assumption; rewrite ?(height_ht _ Hb'), ?(height_ht _ Hl); lia|].
           split; [lia|]. intros Hgrow. right.
           destruct (insert r k v); simpl in *; [lia|].
           right. split; [assumption|lia].
      * simpl. split; [repeat split; assumption|]. split; [left; lia|]. lia.
Qed.

End Balance.

Section Search.

Variable T : Type.
Implicit Types t l r : avl T.

Abbreviation R := (fun a b : string => String.compare a b = Lt).

Lemma keys_elements t : keys t = List.map fst (elements t).
Proof. induction t; simpl; [reflexivity|]. rewrite map_app. simpl. congruence. Qed.

Lemma elements_rightRotate t : elements (rightRotate t) = elements t.
Proof.
  destruct t as [|[|a k1 v1 h1 b] k0 v0 h0 r]; simpl; try reflexivity.
  rewrite <- app_assoc. reflexivity.
Qed.

Lemma elements_leftRotate t : elements (leftRotate t) = elements t.
Proof.
  destruct t as [|l k0 v0 h0 [|a k1 v1 h1 b]]; simpl; try reflexivity.
  rewrite <- app_assoc. reflexivity.
Qed.

Lemma elements_rebalance t key : elements (rebalance t key) = elements t.
Proof.
  destruct t as [|l k v h r]; [reflexivity|]. unfold rebalance.
  repeat match goal with |- context [if ?c then _ else _] => destruct c end;
  rewrite ?elements_rightRotate, ?elements_leftRotate; simpl;
  rewrite ?elements_rightRotate, ?elements_leftRotate; reflexivity.
Qed.

Lemma keys_rebalance t key : keys (rebalance t key) = keys t.
Proof. rewrite !keys_elements, elements_rebalance. reflexivity. Qed.

Lemma ss_app_cons (A B : list string) x :
  Sorted.StronglySorted R (A ++ x :: B) <->
  Sorted.StronglySorted R A /\ Sorted.StronglySorted R B /\
  Forall (fun a => R a x) A /\ Forall (R x) B.
Proof.
  induction A as [|a A IH]; simpl.
  - split.
    + intros H. inversion H; subst. repeat split; auto. constructor.
    + intros (_ & HB & _ & Hx). constructor; assumption.
  - split.
    + intros H. inversion H as [|? ? Hs Hf]; subst.
      apply IH in Hs as (HA & HB & HAx & HxB).
      apply List.Forall_app in Hf as (HaA & HaxB). inversion HaxB; subst.
      repeat split; auto. constructor; auto.
    + intros (HA & HB & HAx & HxB). inversion HA as [|? ? HA' HaA]; subst.
      inversion HAx as [|? ? Hax HAx']; subst.
      constructor; [apply IH; auto|].
      apply List.Forall_app. split; [assumption|]. constructor; [assumption|].
      eapply List.Forall_impl; [|exact HxB]. intros b Hb. eapply cmp_lt_trans; eassumption.
Qed.

Lemma insert_Node l k0 v0 h r k v :
  insert (Node l k0 v0 h r) k v =
  if key_lt k k0 then rebalance (Node (insert l k v) k0 v0 h r) k
  else if key_gt k k0 then rebalance (Node l k0 v0 h (insert r k v)) k
  else Node l k0 v h r.
Proof. reflexivity. Qed.

Lemma in_keys_insert t k v x :
  In x (keys (insert t k v)) <-> x = k \/ In x (keys t).
Proof.
  induction t as [|l IHl k0 v0 h r IHr]; [|rewrite insert_Node].
  - simpl. intuition congruence.
  - destruct (key_lt k k0) eqn:Elt; [|destruct (key_gt k k0) eqn:Egt].
    + rewrite keys_rebalance. simpl. rewrite !in_app_iff, IHl. simpl. tauto.
    + rewrite keys_rebalance. simpl. rewrite !in_app_iff. simpl. rewrite IHr. tauto.
    + simpl. rewrite !in_app_iff. simpl.
      assert (k = k0).
      { unfold key_lt, key_gt in *. destruct (String.compare k k0) eqn:E; try discriminate.
        apply cmp_eq_iff; assumption. }
      subst. intuition congruence.
Qed.

Lemma insert_bst t k v : bst t -> bst (insert t k v).
Proof.
  unfold bst. induction t as [|l IHl k0 v0 h r IHr]; intros Hs; [|rewrite insert_Node].
  - simpl. repeat constructor.
  - simpl in Hs. apply ss_app_cons in Hs as (Hl & Hr & Hlk & Hkr).
    destruct (key_lt k k0) eqn:Elt; [|destruct (key_gt k k0) eqn:Egt].
    + rewrite keys_rebalance. simpl. apply ss_app_cons. repeat split; auto.
      apply List.Forall_forall. intros x Hx. apply in_keys_insert in Hx as [->|Hx].
      * apply key_lt_true; assumption.
      * rewrite List.Forall_forall in Hlk. auto.
    + rewrite keys_rebalance. simpl. apply ss_app_cons. repeat split; auto.
      apply List.Forall_forall. intros x Hx. apply in_keys_insert in Hx as [->|Hx].
      * apply cmp_gt_lt, key_gt_true; assumption.
      * rewrite List.Forall_forall in Hkr. auto.
    + simpl. apply ss_app_cons. auto.
Qed.

Lemma lookup_app key (A B : list (string * T)) :
  lookup key (A ++ B) = match lookup key A with Some w => Some w | None => lookup key B end.
Proof.
  induction A as [|[k v] A IH]; simpl; [reflexivity|]. destruct (String.eqb k key); auto.
Qed.

Lemma lookup_not_in key (A : list (string * T)) :
  ~ In key (List.map fst A) -> lookup key A = None.
Proof.
  induction A as [|[k v] A IH]; simpl; [reflexivity|]. intros Hn.
  destruct (String.eqb_spec k key); [subst; tauto|]. auto.
Qed.

Lemma lt_not_in key (A : list string) :
  Forall (fun a => R a key) A -> ~ In key A.
Proof.
  intros H Hin. rewrite List.Forall_forall in H. specialize (H _ Hin).
  rewrite cmp_refl in H. discriminate.
Qed.

Lemma gt_not_in key (A : list string) :
  Forall (R key) A -> ~ In key A.
Proof.
  intros H Hin. rewrite List.Forall_forall in H. specialize (H _ Hin).
  rewrite cmp_refl in H. discriminate.
Qed.

Lemma find_lookup t key : bst t -> find t key = lookup key (elements t).
Proof.
  unfold bst. induction t as [|l IHl k0 v0 h r IHr]; intros Hs; [reflexivity|].
  simpl in Hs |- *. apply ss_app_cons in Hs as (Hl & Hr & Hlk & Hkr).
  rewrite lookup_app. simpl.
  destruct (String.eqb_spec k0 key) as [<-|Hne].
  - rewrite lookup_not_in; [reflexivity|]. rewrite <- keys_elements.
    apply lt_not_in; assumption.
  - destruct (key_lt key k0) eqn:Elt.
    + rewrite IHl by assumption. destruct (lookup key (elements l)); [reflexivity|].
      symmetry. apply lookup_not_in. rewrite <- keys_elements. apply gt_not_in.
      eapply List.Forall_impl; [|exact Hkr]. intros b Hb.
      eapply cmp_lt_trans; [apply key_lt_true; exact Elt|exact Hb].
    + rewrite IHr by assumption.
      rewrite (lookup_not_in key (elements l)); [reflexivity|]. rewrite <- keys_elements.
      apply lt_not_in. eapply List.Forall_impl; [|exact Hlk]. intros b Hb.
      eapply cmp_lt_trans; [exact Hb|].
      unfold key_lt in Elt. apply cmp_gt_lt.
      destruct (String.compare key k0) eqn:E; try discriminate; [|reflexivity].
      apply cmp_eq_iff in E. congruence.
Qed.

Lemma lookup_insert t k v key :
  bst t ->
  lookup key (elements (insert t k v)) =
  if String.eqb k key then Some v else lookup key (elements t).
Proof.
  unfold bst. induction t as [|l IHl k0 v0 h r IHr]; intros Hs; [|rewrite insert_Node].
  - simpl. destruct (String.eqb k key); reflexivity.
  - simpl in Hs. pose proof Hs as Hs'. apply ss_app_cons in Hs as (Hl & Hr & Hlk & Hkr).
    destruct (key_lt k k0) eqn:Elt; [|destruct (key_gt k k0) eqn:Egt].
    + rewrite elements_rebalance. simpl. rewrite !lookup_app, IHl by assumption.
      destruct (String.eqb k key); reflexivity.
    + rewrite elements_rebalance. simpl. rewrite !lookup_app. simpl. rewrite IHr by assumption.
      destruct (String.eqb_spec k key) as [Heq|Hne]; [subst key|reflexivity].
      rewrite lookup_not_in.
      * destruct (String.eqb_spec k0 k); [|reflexivity]. subst.
        unfold key_gt in Egt. rewrite cmp_refl in Egt. discriminate.
      * rewrite <- keys_elements. apply lt_not_in.
        eapply List.Forall_impl; [|exact Hlk]. intros b Hb.
        eapply cmp_lt_trans; [exact Hb|]. apply cmp_gt_lt, key_gt_true. assumption.
    + assert (k = k0).
      { unfold key_lt, key_gt in *. destruct (String.compare k k0) eqn:E; try discriminate.
        apply cmp_eq_iff; assumption. }
      subst. simpl. rewrite !lookup_app. simpl.
      destruct (String.eqb_spec k0 key) as [Heq|Hne]; [subst|reflexivity].
      rewrite lookup_not_in; [reflexivity|]. rewrite <- keys_elements. apply lt_not_in. assumption.
Qed.

Lemma find_insert t k v key :
  bst t -> find (insert t k v) key = if String.eqb k key then Some v else find t key.
Proof.
  intros Hs. rewrite !find_lookup by (auto using insert_bst). apply lookup_insert. assumption.
Qed.

End Search.

End AVLFacts.

Module IndexClaims.

Import AVL AVLFacts.

Lemma fold_insert_balanced {T} (ops : list (string * T)) (t : avl T) :
  balanced t -> balanced (fold_left (fun t kv => insert t (fst kv) (snd kv)) ops t).
Proof.
  revert t. induction ops as [|[k v] ops IH]; intros t Hb; simpl; [assumption|].
  apply IH. apply insert_balanced. assumption.
Qed.

(** C3: after any sequence of [insert] calls on an empty tree, every node
    has its cached height equal to its real height, and the heights of its
    two subtrees differ by at most one. *)
Theorem C3_balanced_after_inserts (ops : list (string * Persist.pmap)) :
  balanced (insert_all ops).
Proof. apply fold_insert_balanced. exact I. Qed.

Lemma fold_insert_find {T} (ops : list (string * T)) (t : avl T) key :
  bst t ->
  find (fold_left (fun t kv => insert t (fst kv) (snd kv)) ops t) key =
  match last_value ops key with Some w => Some w | None => find t key end.
Proof.
  revert t. induction ops as [|[k v] ops IH]; intros t Hs; simpl; [reflexivity|].
  rewrite IH by (apply insert_bst; assumption).
  destruct (last_value ops key); [reflexivity|].
  rewrite find_insert by assumption. destruct (String.eqb k key); reflexivity.
Qed.

Lemma last_value_None {T} (ops : list (string * T)) key :
  last_value ops key = None <-> ~ In key (List.map fst ops).
Proof.
  induction ops as [|[k v] ops IH]; simpl; [tauto|].
  destruct (last_value ops key) eqn:E.
  - split; [discriminate|]. intros Hn. exfalso.
    destruct (in_dec String.string_dec key (List.map fst ops)) as [Hin|Hnin].
    + apply Hn. right. exact Hin.
    + apply IH in Hnin. discriminate.
  - destruct (String.eqb_spec k key); [subst; split; [discriminate|tauto]|].
    rewrite IH. intuition.
Qed.

Lemma find_insert_all (ops : list (string * Persist.pmap)) (key : string) :
  find (insert_all ops) key = last_value ops key.
Proof.
  unfold insert_all. rewrite fold_insert_find by (unfold bst; constructor).
  destruct (last_value ops key); reflexivity.
Qed.

(** C4: after any sequence of [insert] calls on an empty tree, [find key]
    returns the value of the last insert of [key], and reports absence
    ([nullptr], here [None]) exactly when [key] was never inserted; a key
    whose stored posting map is empty is found ([Some []]), not absent. *)
Theorem C4_find_most_recent (ops : list (string * Persist.pmap)) (key : string) :
  find (insert_all ops) key = last_value ops key /\
  (find (insert_all ops) key = None <-> ~ In key (List.map fst ops)) /\
  (find (insert_all ops) key = Some [] -> In key (List.map fst ops)).
Proof.
  pose proof (find_insert_all ops key) as E.
  split; [exact E|]. rewrite E, <- last_value_None. split; [tauto|].
  intros H. destruct (in_dec String.string_dec key (List.map fst ops)) as [Hin|Hnin]; [exact Hin|].
  apply last_value_None in Hnin. congruence.
Qed.

End IndexClaims.

Module PersistClaims.

Import AVL AVLFacts Persist.
Local Open Scope string_scope.

Lemma length_le_bytes w n : length (le_bytes w n) = w.
Proof. revert n. induction w; intros n; simpl; [reflexivity|]. rewrite IHw. reflexivity. Qed.

Lemma length_bytes_of_string d : length (bytes_of_string d) = String.length d.
Proof.
  unfold bytes_of_string. rewrite length_map.
  induction d; simpl; congruence.
Qed.

(** C1 (the code at the failing input): [AVLTree::load] only reads into an
    existing root, so loading any file into a fresh, empty index leaves it
    empty: every key inserted before [save] is absent after [load]. *)
Theorem C1_load_into_fresh_index_loses_keys
    (node_load : stream -> pmap -> pmap * bool) (fs : files) (f : string)
    (ops : list (string * pmap)) (key : string) :
  In key (List.map fst ops) ->
  find (fst (loadFromFile node_load (saveToFile fs f (insert_all ops)) f Leaf)) key = None /\
  find (insert_all ops) key <> None.
Proof.
  intros Hin. split; [reflexivity|].
  rewrite IndexClaims.find_insert_all, IndexClaims.last_value_None. tauto.
Qed.

Lemma C1_load_into_fresh_index_loses_keys_witness :
  In "profit" (List.map fst [("profit", [("a.json", 3)])]) /\
  find (fst (loadFromFile loadMap (saveToFile ∅ "word.dat" (insert_all [("profit", [("a.json", 3)])]))
         "word.dat" Leaf)) "profit" = None /\
  find (insert_all [("profit", [("a.json", 3)])]) "profit" <> None.
Proof.
  split; [simpl; left; reflexivity|].
  apply (C1_load_into_fresh_index_loses_keys loadMap ∅ "word.dat" [("profit", [("a.json", 3)])] "profit").
  simpl. left. reflexivity.
Defined.

(** C2 (the code at the failing input): on a fresh index manager (three
    empty trees, as in the [SearchEngine] constructor) [WordMap::load]
    reports success whatever the files hold, also when none exists, and
    the indices stay empty; the constructor then neither rebuilds nor
    saves. *)
Theorem C2_load_fresh_wordmap_always_succeeds
    (node_load : stream -> pmap -> pmap * bool) (fs : files) (o n w : string) :
  WordMap.load node_load fs o n w WordMap.empty_wordmap = (true, WordMap.empty_wordmap).
Proof. reflexivity. Qed.

(** C5 (the code at the failing input): for an index built by any
    non-empty sequence of inserts, [save] writes the encoding of one
    posting map only, the one stored under the root's key, and no key at
    all: the bytes are the same for every tree with that root map, whatever
    its keys, subtrees and heights. *)
Theorem C5_save_writes_no_key (ops : list (string * pmap)) :
  ops <> [] ->
  exists k v, In k (List.map fst ops) /\ find (insert_all ops) k = Some v /\
    tree_save (insert_all ops) = saveMap v /\
    (forall l' k' h' r', tree_save (Node l' k' v h' r') = tree_save (insert_all ops)).
Proof.
  intros Hne.
  assert (Hin : forall k v, find (insert_all ops) k = Some v -> In k (List.map fst ops)).
  { intros k v Hf. rewrite IndexClaims.find_insert_all in Hf.
    destruct (in_dec string_dec k (List.map fst ops)) as [H|H]; [exact H|].
    apply IndexClaims.last_value_None in H. congruence. }
  destruct (insert_all ops) as [|l k v h r] eqn:E.
  - destruct ops as [|[k0 v0] ops]; [congruence|].
    assert (H : find (insert_all ((k0, v0) :: ops)) k0 <> None).
    { rewrite IndexClaims.find_insert_all, IndexClaims.last_value_None. simpl. tauto. }
    rewrite E in H. simpl in H. congruence.
  - exists k, v.
    assert (Hf : find (Node l k v h r) k = Some v) by (simpl; rewrite String.eqb_refl; reflexivity).
    split; [apply (Hin k v); exact Hf|].
    split; [exact Hf|]. split; reflexivity.
Qed.

Lemma C5_save_writes_no_key_witness :
  [("profit", [("a.json", 3)]); ("loss", [("b.json", 1)])] <> [] /\
  tree_save (insert_all [("profit", [("a.json", 3)]); ("loss", [("b.json", 1)])]) =
    [1; 0; 0; 0; 0; 0; 0; 0;  6; 0; 0; 0; 0; 0; 0; 0;  97; 46; 106; 115; 111; 110;  3; 0; 0; 0] /\
  exists k v, In k (List.map fst [("profit", [("a.json", 3)]); ("loss", [("b.json", 1)])]) /\
    find (insert_all [("profit", [("a.json", 3)]); ("loss", [("b.json", 1)])]) k = Some v /\
    tree_save (insert_all [("profit", [("a.json", 3)]); ("loss", [("b.json", 1)])]) = saveMap v /\
    (forall l' k' h' r', tree_save (Node l' k' v h' r') =
       tree_save (insert_all [("profit", [("a.json", 3)]); ("loss", [("b.json", 1)])])).
Proof.
  split; [discriminate|]. split; [vm_compute; reflexivity|].
  apply C5_save_writes_no_key. discriminate.
Defined.

(** C9: [AVLTree::loadFromFile] creates no node: an empty tree stays empty
    whatever the file holds, and on a non-empty tree the keys, cached
    heights and structure are unchanged, as is the value found for every
    key other than the root's; only the root's posting map is replaced. *)
Theorem C9_load_creates_no_node
    (node_load : stream -> pmap -> pmap * bool) (fs : files) (f : string) (t : avl pmap) :
  let t' := fst (loadFromFile node_load fs f t) in
  (t = Leaf -> t' = Leaf) /\
  shape t' = shape t /\
  keys t' = keys t /\
  (forall key, root_key t <> Some key -> find t' key = find t key) /\
  (forall l k v h r, t = Node l k v h r -> t' = Node l k (fst (node_load (fs !! f) v)) h r).
Proof.
  unfold loadFromFile, tree_load. destruct t as [|l k v h r]; simpl.
  - repeat split; try reflexivity; intros; discriminate.
  - destruct (node_load (fs !! f) v) as [v' e] eqn:E. simpl.
    repeat split; try reflexivity.
    + intros [=].
    + intros key Hne. destruct (String.eqb_spec k key); [congruence|reflexivity].
    + intros l0 k0 v0 h0 r0 [= <- <- <- <- <-]. rewrite E. reflexivity.
Qed.

Lemma C9_load_creates_no_node_witness :
  fst (loadFromFile loadMap ∅ "org.dat" Leaf) = Leaf /\
  find (fst (loadFromFile loadMap ∅ "org.dat" (insert_all [("b", [("x", 1)]); ("a", [("y", 2)])]))) "a"
    = Some [("y", 2)].
Proof.
  split.
  - apply (C9_load_creates_no_node loadMap ∅ "org.dat" Leaf). reflexivity.
  - rewrite (proj1 (proj2 (proj2 (proj2 (C9_load_creates_no_node loadMap ∅ "org.dat"
      (insert_all [("b", [("x", 1)]); ("a", [("y", 2)])])))))).
    + reflexivity.
    + vm_compute. intros [=].
Defined.

(** C10: [getOtherFilesByWord] returns [getFilesByWord]'s map, for every
    word and every index state. *)
Theorem C10_other_files_by_word (wm : WordMap.WordMap) (w : string) :
  WordMap.getOtherFilesByWord wm w = WordMap.getFilesByWord wm w.
Proof. reflexivity. Qed.

End PersistClaims.

Module ParseClaims.

Import Parse.
Local Open Scope string_scope.

Lemma substring_0_length (s : string) : substring 0 (String.length s) s = s.
Proof. induction s; simpl; congruence. Qed.

Lemma parse_step_classify (terms : gset string) (tok : string) :
  parse_step terms tok =
  match classify_spec tok with Some x => {[ x ]} ∪ terms | None => terms end.
Proof.
  unfold parse_step, classify_spec, starts_with.
  destruct (Text.lower tok) as [|c rest] eqn:E.
  - reflexivity.
  - destruct (String.prefix "org:" (String c rest) || String.prefix "person:" (String c rest))%bool;
      [reflexivity|].
    unfold Text.char_at. cbn [String.get].
    destruct (Ascii.eqb c "-"%char); [|destruct (Text.processWord (String c rest)); reflexivity].
    cbn [String.length]. replace (S (String.length rest) - 1)%nat with (String.length rest) by lia.
    cbn [substring]. rewrite substring_0_length.
    destruct (Text.processWord rest); reflexivity.
Qed.

Lemma fold_parse_step (toks : list string) (S : gset string) :
  fold_left parse_step toks S = S ∪ list_to_set (omap classify_spec toks).
Proof.
  revert S. induction toks as [|tok toks IH]; intros S; simpl; [set_solver|].
  rewrite IH, parse_step_classify.
  destruct (classify_spec tok); simpl; set_solver.
Qed.

Lemma parse_as_set (s : string) : parse s = parse_spec s.
Proof. unfold parse, parse_spec. rewrite fold_parse_step. set_solver. Qed.

(** C6: [parse] splits the query at white space, case-folds every token
    and keeps it verbatim when it starts with "org:" or "person:", as "-"
    followed by [processWord] of the rest when it starts with "-" and that
    is non-empty, as [processWord] of the token when that is non-empty;
    the result is the set of these terms, so two queries with the same
    tokens, however often repeated, parse to the same set. *)
Theorem C6_parse_classifies_tokens_into_set (s1 s2 : string) :
  parse s1 = parse_spec s1 /\
  ((forall tok, In tok (split_ws s1) <-> In tok (split_ws s2)) -> parse s1 = parse s2).
Proof.
  split; [apply parse_as_set|]. intros Hsame.
  rewrite !parse_as_set. unfold parse_spec.
  apply set_eq. intros x. rewrite !elem_of_list_to_set, !list_elem_of_omap.
  split; intros (tok & Hin & Hc); exists tok; split; try assumption;
    apply list_elem_of_In; apply list_elem_of_In in Hin; apply Hsame; assumption.
Qed.

End ParseClaims.

Module TextClaims.

Import Text AVL AVLFacts.
Local Open Scope string_scope.

(** C7, the claim refuted: [stem "housed"] drops "ed" (step 1b) and
    gives "hous"; stemming that again drops the final "s" (step 1a). *)
Lemma C7_stem_not_idempotent_counterexample :
  stem "housed" = "hous" /\ stem (stem "housed") = "hou" /\
  stem (stem "housed") <> stem "housed".
Proof. vm_compute. split; [reflexivity|]. split; [reflexivity|]. discriminate. Qed.

(** C7, as the code has it: [stem] is idempotent on representative words
    (plural, gerund, past-tense and "-y" forms), e.g. running -> run -> run;
    it is not idempotent on every word. *)
Theorem C7_stem_idempotent_on_representatives :
  Forall (fun w => stem (stem w) = stem w)
    ["running"; "run"; "hopping"; "caresses"; "ponies"; "cats"; "agreed";
     "happy"; "profit"; "loss"; "plastered"; "motoring"; "sing"; "conflated"] /\
  stem "running" = "run" /\ stem "run" = "run".
Proof.
  split; [repeat (apply List.Forall_cons; [vm_compute; reflexivity|]); apply List.Forall_nil|].
  split; vm_compute; reflexivity.
Qed.

Lemma length_lower (s : string) : String.length (lower s) = String.length s.
Proof. induction s; simpl; congruence. Qed.

Lemma stopwords_lowercase (x : string) : In x commonStopwords -> lower x = x.
Proof. simpl. intros H. repeat destruct H as [<-|H]; try reflexivity. contradiction. Qed.

Lemma isStopword_In (x : string) : isStopword x = true <-> In x commonStopwords.
Proof.
  unfold isStopword. rewrite existsb_exists. split.
  - intros (y & Hy & E). apply String.eqb_eq in E. subst. exact Hy.
  - intros H. exists x. split; [exact H|]. apply String.eqb_refl.
Qed.

Lemma lower_empty (w : string) : lower w = "" -> w = "".
Proof. destruct w; simpl; congruence. Qed.

(** C8, the claim refuted: "an" is a stopword and "An" differs from it,
    yet [processWord "An"] is "An": two-character words are not
    lowercased by [stem], so the result is not the lowercased stem. *)
Lemma C8_short_word_not_lowercased_counterexample :
  isStopword (lower "An") = true /\ lower "An" = "an" /\
  processWord "An" = "An" /\ processWord "An" <> lower "An".
Proof. vm_compute. repeat split; try reflexivity. discriminate. Qed.

(** C8, as the code has it: the stopword test sees the raw token and the
    stopword list is lowercase, so a token that differs from its lowercase
    form [lower w], itself a stopword, is not dropped: [processWord w] is
    [lower w] for a token of more than two characters and [w] unchanged
    otherwise, never empty, and the body-word loop of [buildFromScratch]
    puts it into the word index. *)
Theorem C8_uppercase_stopword_kept (w : string) (wm : WordMap.WordMap) (fp : string) :
  isStopword (lower w) = true -> w <> lower w -> bst (WordMap.wordIndex wm) ->
  processWord w = (if Nat.leb (String.length w) 2 then w else lower w) /\
  processWord w <> "" /\
  find (WordMap.wordIndex (WordMap.index_body_words wm fp [w])) (processWord w) <> None.
Proof.
  intros Hs Hne Hb.
  assert (Hnot : isStopword w = false).
  { destruct (isStopword w) eqn:E; [|reflexivity].
    apply isStopword_In, stopwords_lowercase in E. congruence. }
  apply isStopword_In in Hs.
  assert (Hw : w <> "").
  { intros ->. simpl in Hs. intuition discriminate. }
  assert (Hp : processWord w = (if Nat.leb (String.length w) 2 then w else lower w)).
  { unfold processWord. rewrite Hnot. unfold stem.
    destruct (Nat.leb (String.length w) 2) eqn:L; [reflexivity|].
    apply Nat.leb_gt in L. rewrite <- length_lower in L.
    revert Hs L. generalize (lower w) as x. intros x Hs L.
    simpl in Hs. repeat destruct Hs as [<-|Hs];
      try (simpl in L; lia); try (vm_compute; reflexivity); try contradiction. }
  assert (Hne' : processWord w <> "").
  { rewrite Hp. destruct (Nat.leb (String.length w) 2); [exact Hw|].
    intros E. apply lower_empty in E. contradiction. }
  split; [exact Hp|]. split; [exact Hne'|].
  unfold WordMap.index_body_words. cbn [fold_left].
  apply String.eqb_neq in Hne'. rewrite Hne'. cbn [negb].
  unfold WordMap.associateWord. rewrite Hne'. cbn [WordMap.wordIndex].
  rewrite find_insert by exact Hb. rewrite String.eqb_refl. discriminate.
Qed.

Lemma C8_uppercase_stopword_kept_witness :
  isStopword (lower "About") = true /\ "About" <> lower "About" /\
  processWord "About" = "about" /\
  find (WordMap.wordIndex (WordMap.index_body_words WordMap.empty_wordmap "a.json" ["About"]))
    (processWord "About") <> None.
Proof.
  split; [vm_compute; reflexivity|]. split; [vm_compute; discriminate|].
  destruct (C8_uppercase_stopword_kept "About" WordMap.empty_wordmap "a.json") as (H1 & _ & H3).
  - vm_compute. reflexivity.
  - vm_compute. discriminate.
  - unfold bst. constructor.
  - split; [rewrite H1; vm_compute; reflexivity|exact H3].
Defined.

End TextClaims.

(* ================================================================== *)
(** * Further properties of the code *)

Module AVLExtras.

Import AVL AVLFacts IndexClaims.

Lemma ss_NoDup (l : list string) :
  Sorted.StronglySorted (fun a b => String.compare a b = Lt) l -> List.NoDup l.
Proof.
  induction l as [|a l IH]; intros H; constructor; inversion H; subst.
  - apply gt_not_in. assumption.
  - auto.
Qed.

Lemma fold_insert_bst {T} (ops : list (string * T)) (t : avl T) :
  bst t -> bst (fold_left (fun t kv => insert t (fst kv) (snd kv)) ops t).
Proof.
  revert t. induction ops as [|[k v] ops IH]; intros t Hb; simpl; [assumption|].
  apply IH. apply insert_bst. assumption.
Qed.

Lemma fold_insert_keys {T} (ops : list (string * T)) (t : avl T) x :
  In x (keys (fold_left (fun t kv => insert t (fst kv) (snd kv)) ops t)) <->
  In x (List.map fst ops) \/ In x (keys t).
Proof.
  revert t. induction ops as [|[k v] ops IH]; intros t; simpl; [tauto|].
  rewrite IH, in_keys_insert. intuition congruence.
Qed.

(** A balanced tree of height [h] has at least [2^(h/2) - 1] nodes. *)
Lemma size_height {T} (t : avl T) :
  balanced t -> 2 ^ (ht t / 2) <= Z.of_nat (length (keys t)) + 1.
Proof.
  induction t as [|l IHl k v h r IHr]; intros Hb; [vm_compute; discriminate|].
  destruct Hb as (Hl & Hr & _ & Hab). specialize (IHl Hl). specialize (IHr Hr).
  cbn [ht keys]. rewrite length_app. cbn [length].
  pose proof (ht_nonneg _ l). pose proof (ht_nonneg _ r).
  set (m := Z.max (ht l) (ht r)).
  destruct (Z.eq_dec m 0) as [E|E].
  - rewrite E. change ((1 + 0) / 2) with 0. rewrite Z.pow_0_r. lia.
  - set (q := (1 + m) / 2).
    assert (Hq1 : q - 1 <= ht l / 2) by (unfold q, m in *; Z.div_mod_to_equations; lia).
    assert (Hq2 : q - 1 <= ht r / 2) by (unfold q, m in *; Z.div_mod_to_equations; lia).
    assert (Hq0 : 0 <= q - 1) by (unfold q, m in *; Z.div_mod_to_equations; lia).
    replace q with (Z.succ (q - 1)) by lia. rewrite Z.pow_succ_r by lia.
    pose proof (Z.pow_le_mono_r 2 _ _ ltac:(lia) Hq1).
    pose proof (Z.pow_le_mono_r 2 _ _ ltac:(lia) Hq2).
    lia.
Qed.

(** X1: after any sequence of [insert] calls on an empty tree, the tree
    holds every inserted key exactly once and no other key. *)
Theorem X_insert_all_keys (ops : list (string * Persist.pmap)) :
  List.NoDup (keys (insert_all ops)) /\
  (forall k, In k (keys (insert_all ops)) <-> In k (List.map fst ops)).
Proof.
  split.
  - apply ss_NoDup. apply fold_insert_bst. constructor.
  - intros k. unfold insert_all. rewrite fold_insert_keys. simpl. tauto.
Qed.

(** X2: the height stored at the root of a tree built by [insert] calls
    is logarithmic in its number of keys, [2^(height/2) <= n + 1], and the
    tree has at most one node per [insert] call. *)
Theorem X_insert_all_height (ops : list (string * Persist.pmap)) :
  2 ^ (height (insert_all ops) / 2) <= Z.of_nat (length (keys (insert_all ops))) + 1 /\
  (length (keys (insert_all ops)) <= length ops)%nat.
Proof.
  assert (Hb : balanced (insert_all ops)) by (apply fold_insert_balanced; exact I).
  split.
  - rewrite height_ht by exact Hb. apply size_height. exact Hb.
  - transitivity (length (List.map fst ops)); [|rewrite length_map; lia].
    apply NoDup_incl_length.
    + apply ss_NoDup. apply fold_insert_bst. constructor.
    + intros k Hk. unfold insert_all in Hk. apply fold_insert_keys in Hk. simpl in Hk. tauto.
Qed.

(** X3: [insert] into a balanced tree gives a balanced tree whose root
    height is the old one or one more. *)
Theorem X_insert_height_step (t : avl Persist.pmap) (k : string) (v : Persist.pmap) :
  balanced t ->
  balanced (insert t k v) /\
  (height (insert t k v) = height t \/ height (insert t k v) = height t + 1).
Proof.
  intros Hb. destruct (insert_balanced _ t k v Hb) as (Hb' & Hh & _).
  split; [exact Hb'|]. rewrite !height_ht by assumption. exact Hh.
Qed.

Lemma X_insert_height_step_witness :
  balanced (insert_all [("apple", [("a.json", 1)]); ("pear", [])]) /\
  (height (insert (insert_all [("apple", [("a.json", 1)]); ("pear", [])]) "zinc" []) = 2 \/
   height (insert (insert_all [("apple", [("a.json", 1)]); ("pear", [])]) "zinc" []) = 2 + 1).
Proof.
  assert (Hb : balanced (insert_all [("apple", [("a.json", 1)]); ("pear", [])]))
    by (apply fold_insert_balanced; exact I).
  split; [exact Hb|].
  exact (proj2 (X_insert_height_step _ "zinc" [] Hb)).
Defined.

(** X4: the rotations [rightRotate] and [leftRotate] keep the in-order
    sequence of (key, value) pairs, hence the search-tree order. *)
Theorem X_rotations_keep_inorder (t : avl Persist.pmap) :
  elements (rightRotate t) = elements t /\ elements (leftRotate t) = elements t /\
  (bst t -> bst (rightRotate t) /\ bst (leftRotate t)).
Proof.
  split; [apply elements_rightRotate|]. split; [apply elements_leftRotate|].
  unfold bst. rewrite !keys_elements, elements_rightRotate, elements_leftRotate. auto.
Qed.

End AVLExtras.

Module PersistExtras.

Import AVL AVLFacts Persist PersistClaims.

Lemma of_le_bytes_le_bytes w n : of_le_bytes (le_bytes w n) = n mod 256 ^ Z.of_nat w.
Proof.
  revert n. induction w as [|w IH]; intros n; simpl le_bytes; simpl of_le_bytes.
  - rewrite Z.pow_0_r, Z.mod_1_r. reflexivity.
  - rewrite IH, Nat2Z.inj_succ, Z.pow_succ_r by lia.
    assert (0 < 256 ^ Z.of_nat w) by (apply Z.pow_pos_nonneg; lia).
    rewrite !Z.mod_eq by lia. rewrite <- Z.div_div by lia. ring.
Qed.

Lemma int_of_bytes_le_bytes c :
  - 2 ^ 31 <= c < 2 ^ 31 -> int_of_bytes (le_bytes sizeof_int c) = c.
Proof.
  intros Hc. unfold int_of_bytes. rewrite of_le_bytes_le_bytes.
  change (256 ^ Z.of_nat sizeof_int) with (2 ^ 32).
  destruct (Z.leb_spec 0 c).
  - rewrite Z.mod_small by lia. destruct (Z.ltb_spec c (2 ^ 31)); lia.
  - assert (E : c mod 2 ^ 32 = c + 2 ^ 32) by (symmetry; apply Z.mod_unique with (-1); lia).
    rewrite E. destruct (Z.ltb_spec (c + 2 ^ 32) (2 ^ 31)); lia.
Qed.

(** X5: decoding the object representation written for a [w]-byte
    unsigned integer gives the value modulo [256^w]; a 4-byte [int] in
    range is read back unchanged (negative ones via two's complement). *)
Theorem X_le_bytes_decode (w : nat) (n : Z) :
  of_le_bytes (le_bytes w n) = n mod 256 ^ Z.of_nat w /\
  (- 2 ^ 31 <= n < 2 ^ 31 -> int_of_bytes (le_bytes sizeof_int n) = n).
Proof. split; [apply of_le_bytes_le_bytes|apply int_of_bytes_le_bytes]. Qed.

Lemma read_bytes_app (a b : list Z) :
  read_bytes (length a) (Some (a ++ b)) = Some (a, Some b).
Proof.
  unfold read_bytes. rewrite length_app, (proj2 (Nat.leb_le _ _)) by lia.
  rewrite firstn_app, skipn_app, Nat.sub_diag, firstn_all, skipn_all. simpl.
  rewrite app_nil_r. reflexivity.
Qed.

Lemma string_of_bytes_of_string (s : string) : string_of_bytes (bytes_of_string s) = s.
Proof.
  unfold string_of_bytes, bytes_of_string. rewrite map_map.
  induction s as [|a s IH]; simpl; [reflexivity|]. rewrite IH.
  rewrite N2Z.id, ascii_N_embedding. reflexivity.
Qed.

Lemma loadPostings_saved (m : pmap) (rest : list Z) (acc : pmap) :
  Forall posting_ok m ->
  loadPostings (length m) (Some (flat_map savePosting m ++ rest)) acc =
  fold_left (fun a p => pm_set a (fst p) (snd p)) m acc.
Proof.
  revert acc. induction m as [|[k v] m IH]; intros acc Hok; [reflexivity|].
  inversion Hok as [|? ? [Hk Hv] Hok']; subst. simpl in Hk, Hv.
  cbn [length loadPostings flat_map]. unfold savePosting at 1. cbn [fst snd].
  rewrite <- !app_assoc.
  rewrite <- (length_le_bytes sizeof_size_t (Z.of_nat (String.length k))) at 1.
  rewrite read_bytes_app, of_le_bytes_le_bytes.
  rewrite Z.mod_small by (change (256 ^ Z.of_nat sizeof_size_t) with (2 ^ 64); lia).
  rewrite Nat2Z.id, <- length_bytes_of_string, read_bytes_app.
  rewrite <- (length_le_bytes sizeof_int v) at 1. rewrite read_bytes_app.
  rewrite string_of_bytes_of_string, int_of_bytes_le_bytes by assumption.
  apply IH. assumption.
Qed.

Lemma pm_set_new (acc : pmap) k v :
  ~ In k (List.map fst acc) -> pm_set acc k v = acc ++ [(k, v)].
Proof.
  induction acc as [|[k' v'] acc IH]; simpl; intros Hn; [reflexivity|].
  destruct (String.eqb_spec k' k); [subst; tauto|]. rewrite IH by tauto. reflexivity.
Qed.

Lemma fold_pm_set_fresh (m acc : pmap) :
  List.NoDup (List.map fst acc ++ List.map fst m) ->
  fold_left (fun a p => pm_set a (fst p) (snd p)) m acc = acc ++ m.
Proof.
  revert acc. induction m as [|[k v] m IH]; intros acc Hnd; simpl; [rewrite app_nil_r; reflexivity|].
  cbn [List.map fst] in Hnd. pose proof Hnd as Hnd0.
  apply NoDup_remove in Hnd as [_ Hnin].
  rewrite pm_set_new by (intros H; apply Hnin, in_or_app; left; exact H).
  rewrite IH, <- app_assoc; [reflexivity|].
  rewrite map_app, <- app_assoc. exact Hnd0.
Qed.

Lemma loadMap_saveMap (m : pmap) (rest : list Z) (old : pmap) :
  saveable m -> loadMap (Some (saveMap m ++ rest)) old = (m, false).
Proof.
  intros (Hnd & Hlen & Hok). unfold loadMap, saveMap. rewrite <- app_assoc.
  rewrite <- (length_le_bytes sizeof_size_t (Z.of_nat (length m))) at 1.
  rewrite read_bytes_app, of_le_bytes_le_bytes.
  rewrite Z.mod_small by (change (256 ^ Z.of_nat sizeof_size_t) with (2 ^ 64); lia).
  rewrite Nat2Z.id, loadPostings_saved by assumption.
  rewrite fold_pm_set_fresh by exact Hnd. reflexivity.
Qed.

(** X6: [loadMap] reads back the map [saveMap] wrote, up to the order of
    its entries, whatever map it reads into and whatever bytes follow, and
    reports no failure, for maps with distinct keys, [int] values and sizes
    that fit a [size_t]. *)
Theorem X_loadMap_saveMap (m : pmap) (rest : list Z) (old : pmap) :
  saveable m ->
  Permutation (fst (loadMap (Some (saveMap m ++ rest)) old)) m /\
  snd (loadMap (Some (saveMap m ++ rest)) old) = false.
Proof. intros Hm. rewrite loadMap_saveMap by exact Hm. split; [apply Permutation_refl|reflexivity]. Qed.

Lemma saveable_example : saveable [("a.json", 3); ("b.json", -1)].
Proof.
  split; [|split; [simpl; lia|]].
  - simpl. apply List.NoDup_cons; [intros [H|[]]; discriminate|].
    apply List.NoDup_cons; [intros []|apply List.NoDup_nil].
  - repeat constructor; simpl; lia.
Qed.

Lemma X_loadMap_saveMap_witness :
  saveable [("a.json", 3); ("b.json", -1)] /\
  Permutation (fst (loadMap (Some (saveMap [("a.json", 3); ("b.json", -1)] ++ [])) [("old", 7)]))
    [("a.json", 3); ("b.json", -1)] /\
  snd (loadMap (Some (saveMap [("a.json", 3); ("b.json", -1)] ++ [])) [("old", 7)]) = false.
Proof. split; [exact saveable_example|]. apply X_loadMap_saveMap. exact saveable_example. Defined.

Lemma saveToFile_same (fs : files) f t : saveToFile fs f t !! f = Some (tree_save t).
Proof. unfold saveToFile, files. apply lookup_insert_eq. Qed.

Lemma saveToFile_other (fs : files) f g t : f <> g -> saveToFile fs f t !! g = fs !! g.
Proof. intros H. unfold saveToFile, files. apply lookup_insert_ne. exact H. Qed.

Lemma load_saved_root (fs : files) f l k v h r t :
  saveable v -> fs !! f = Some (tree_save (Node l k v h r)) ->
  loadFromFile loadMap fs f t =
  match t with Leaf => (Leaf, false) | Node l' k' _ h' r' => (Node l' k' v h' r', false) end.
Proof.
  intros Hv Hf. unfold loadFromFile. rewrite Hf.
  destruct t as [|l' k' v' h' r']; [reflexivity|]. cbn [tree_load tree_save node_save].
  rewrite <- (app_nil_r (saveMap v)). rewrite loadMap_saveMap by exact Hv. reflexivity.
Qed.

(** X7: [saveToFile] then [loadFromFile] on the same file name replaces
    the root map of the loading tree, when it has a root, by the root map
    of the saved tree up to the order of its entries; the rest of the
    loading tree (its keys, children, heights) is unchanged, an empty
    loading tree stays empty, and no failure is reported. *)
Theorem X_tree_save_load (fs : files) (filename : string) (t t' : avl pmap) :
  root_saveable t ->
  match t, t' with
  | Node _ _ v _ _, Node l' k' _ h' r' =>
      exists v', loadFromFile loadMap (saveToFile fs filename t) filename t' =
                 (Node l' k' v' h' r', false) /\ Permutation v' v
  | _, _ => loadFromFile loadMap (saveToFile fs filename t) filename t' = (t', false)
  end.
Proof.
  intros Ht. destruct t as [|l k v h r]; [contradiction|].
  rewrite (load_saved_root _ _ l k v h r t' Ht (saveToFile_same fs filename _)).
  destruct t' as [|l' k' v' h' r']; [reflexivity|].
  exists v. split; [reflexivity|apply Permutation_refl].
Qed.

Lemma X_tree_save_load_witness :
  root_saveable (Node Leaf "apple" [("a.json", 3); ("b.json", -1)] 1 Leaf) /\
  exists v', loadFromFile loadMap
    (saveToFile ∅ "org.dat" (Node Leaf "apple" [("a.json", 3); ("b.json", -1)] 1 Leaf))
    "org.dat" (Node Leaf "pear" [] 1 Leaf) = (Node Leaf "pear" v' 1 Leaf, false) /\
    Permutation v' [("a.json", 3); ("b.json", -1)].
Proof.
  split; [exact saveable_example|].
  exact (X_tree_save_load ∅ "org.dat" (Node Leaf "apple" [("a.json", 3); ("b.json", -1)] 1 Leaf)
           (Node Leaf "pear" [] 1 Leaf) saveable_example).
Defined.

(** X8: [WordMap::save] to three distinct paths followed by [WordMap::load]
    from them into the same indices reports success and leaves the indices
    as they were up to the order of the entries of their root maps, when
    each index has a root whose map can be written. *)
Theorem X_wordmap_save_load (fs : files) (o n w : string) (wm : WordMap.WordMap) :
  o <> n -> o <> w -> n <> w ->
  root_saveable (WordMap.orgIndex wm) -> root_saveable (WordMap.nameIndex wm) ->
  root_saveable (WordMap.wordIndex wm) ->
  exists wm', WordMap.load loadMap (WordMap.save fs o n w wm) o n w wm = (true, wm') /\
    root_perm (WordMap.orgIndex wm') (WordMap.orgIndex wm) /\
    root_perm (WordMap.nameIndex wm') (WordMap.nameIndex wm) /\
    root_perm (WordMap.wordIndex wm') (WordMap.wordIndex wm).
Proof.
  intros Hon How Hnw Ho Hn Hw. destruct wm as [oi ni wi]. simpl in Ho, Hn, Hw.
  assert (E : forall fs' f t, root_saveable t ->
            fs' !! f = Some (tree_save t) -> loadFromFile loadMap fs' f t = (t, false)).
  { intros fs' f t Ht Hf. destruct t as [|l k v h r]; [contradiction|].
    rewrite (load_saved_root fs' f l k v h r _ Ht Hf). reflexivity. }
  assert (P : forall t : avl pmap, root_saveable t -> root_perm t t).
  { intros [|l k v h r] Ht; [contradiction|]. cbn. repeat split; apply Permutation_refl. }
  exists (WordMap.mkWordMap oi ni wi). split; [|cbn [WordMap.orgIndex WordMap.nameIndex WordMap.wordIndex]; auto].
  unfold WordMap.load, WordMap.save. cbn [WordMap.orgIndex WordMap.nameIndex WordMap.wordIndex].
  rewrite (E _ _ oi Ho) by (rewrite !saveToFile_other by congruence; apply saveToFile_same).
  rewrite (E _ _ ni Hn) by (rewrite saveToFile_other by congruence; apply saveToFile_same).
  rewrite (E _ _ wi Hw) by apply saveToFile_same.
  reflexivity.
Qed.

Lemma X_wordmap_save_load_witness :
  exists wm', WordMap.load loadMap
    (WordMap.save ∅ "org.dat" "name.dat" "word.dat"
       (WordMap.mkWordMap (Node Leaf "apple" [("a.json", 3); ("b.json", -1)] 1 Leaf)
                          (Node Leaf "cook" [("a.json", 3); ("b.json", -1)] 1 Leaf)
                          (Node Leaf "stock" [("a.json", 3); ("b.json", -1)] 1 Leaf)))
    "org.dat" "name.dat" "word.dat"
    (WordMap.mkWordMap (Node Leaf "apple" [("a.json", 3); ("b.json", -1)] 1 Leaf)
                       (Node Leaf "cook" [("a.json", 3); ("b.json", -1)] 1 Leaf)
                       (Node Leaf "stock" [("a.json", 3); ("b.json", -1)] 1 Leaf)) = (true, wm') /\
    root_perm (WordMap.orgIndex wm') (Node Leaf "apple" [("a.json", 3); ("b.json", -1)] 1 Leaf) /\
    root_perm (WordMap.nameIndex wm') (Node Leaf "cook" [("a.json", 3); ("b.json", -1)] 1 Leaf) /\
    root_perm (WordMap.wordIndex wm') (Node Leaf "stock" [("a.json", 3); ("b.json", -1)] 1 Leaf).
Proof.
  apply X_wordmap_save_load; try discriminate; exact saveable_example.
Defined.

End PersistExtras.

Module TextExtras.

Import Text.
Local Open Scope nat_scope.
Local Open Scope string_scope.

Lemma tolower_idem c : tolower (tolower c) = tolower c.
Proof. destruct c as [[] [] [] [] [] [] [] []]; reflexivity. Qed.

Lemma lower_lower s : lower (lower s) = lower s.
Proof. induction s; simpl; [reflexivity|]. rewrite tolower_idem, IHs. reflexivity. Qed.

Lemma str_app_nil (b : string) : "" ++ b = b.
Proof. reflexivity. Qed.

Lemma str_app_cons c (a b : string) : String c a ++ b = String c (a ++ b).
Proof. reflexivity. Qed.

Lemma str_length_app (a b : string) : String.length (a ++ b) = (String.length a + String.length b)%nat.
Proof. induction a; rewrite ?str_app_nil, ?str_app_cons; simpl; congruence. Qed.

Lemma length_substring (s : string) i n :
  String.length (substring i n s) = Nat.min n (String.length s - i).
Proof.
  revert i n. induction s as [|c s IH]; intros i n; simpl.
  - destruct i, n; reflexivity.
  - destruct i as [|i].
    + destruct n as [|n]; simpl; [reflexivity|]. rewrite IH. simpl. lia.
    + rewrite IH. reflexivity.
Qed.

Lemma substring_app_l (p q : string) : substring 0 (String.length p) (p ++ q) = p.
Proof. induction p; rewrite ?str_app_nil, ?str_app_cons; simpl; [destruct q; reflexivity|congruence]. Qed.

Lemma substring_app_r (p q : string) n : substring (String.length p) n (p ++ q) = substring 0 n q.
Proof. induction p; rewrite ?str_app_nil, ?str_app_cons; simpl; [reflexivity|exact IHp]. Qed.

Lemma substring_split (s : string) m :
  substring 0 m s ++ substring m (String.length s - m) s = s.
Proof.
  revert m. induction s as [|c s IH]; intros m; simpl.
  - destruct m; reflexivity.
  - destruct m as [|m]; simpl; rewrite ?str_app_nil, ?str_app_cons.
    + f_equal. apply ParseClaims.substring_0_length.
    + f_equal. apply IH.
Qed.

Lemma endsWith_spec (str suffix : string) :
  endsWith str suffix = true <-> exists p, str = p ++ suffix.
Proof.
  unfold endsWith. split.
  - destruct (Nat.ltb_spec (String.length str) (String.length suffix)); [discriminate|].
    intros E. apply String.eqb_eq in E.
    exists (substring 0 (String.length str - String.length suffix) str).
    pose proof (substring_split str (String.length str - String.length suffix)) as Hs.
    replace (String.length str - (String.length str - String.length suffix))%nat
      with (String.length suffix) in Hs by lia.
    rewrite E in Hs. symmetry. exact Hs.
  - intros (p & ->). rewrite str_length_app.
    destruct (Nat.ltb_spec (String.length p + String.length suffix) (String.length suffix)); [lia|].
    replace (String.length p + String.length suffix - String.length suffix)%nat with (String.length p) by lia.
    rewrite substring_app_r, ParseClaims.substring_0_length. apply String.eqb_refl.
Qed.

Lemma replaceSuffix_endsWith (str suffix r : string) :
  replaceSuffix str suffix r =
  if endsWith str suffix then prefix_len str (String.length str - String.length suffix) ++ r else str.
Proof.
  unfold replaceSuffix, endsWith.
  destruct (Nat.ltb_spec (String.length str) (String.length suffix));
  destruct (Nat.leb_spec (String.length suffix) (String.length str)); try lia; reflexivity.
Qed.

Lemma replaceSuffix_app (p suffix r : string) : replaceSuffix (p ++ suffix) suffix r = p ++ r.
Proof.
  rewrite replaceSuffix_endsWith.
  replace (endsWith (p ++ suffix) suffix) with true by (symmetry; apply endsWith_spec; eauto).
  rewrite str_length_app. replace (String.length p + String.length suffix - String.length suffix)%nat
    with (String.length p) by lia.
  unfold prefix_len. rewrite substring_app_l. reflexivity.
Qed.

(** X15: [endsWith str suffix] holds exactly when [str] is some prefix
    followed by [suffix]; [replaceSuffix] then swaps that suffix for the
    replacement, and leaves a string without the suffix unchanged. *)
Theorem X_endsWith_replaceSuffix (str suffix r : string) :
  (endsWith str suffix = true <-> exists p, str = p ++ suffix) /\
  (forall p, replaceSuffix (p ++ suffix) suffix r = p ++ r) /\
  (endsWith str suffix = false -> replaceSuffix str suffix r = str).
Proof.
  split; [apply endsWith_spec|]. split; [intros p; apply replaceSuffix_app|].
  intros E. rewrite replaceSuffix_endsWith, E. reflexivity.
Qed.

Lemma length_prefix_len (s : string) m :
  String.length (prefix_len s m) = Nat.min m (String.length s).
Proof. unfold prefix_len. rewrite length_substring. f_equal. lia. Qed.

Lemma length_pop_back (s : string) : String.length (pop_back s) = (String.length s - 1)%nat.
Proof. unfold pop_back. rewrite length_prefix_len. lia. Qed.

Lemma hasVowel_length (s : string) : hasVowel s = true -> (1 <= String.length s)%nat.
Proof. destruct s; simpl; [discriminate|lia]. Qed.

Lemma str_app_nil_r (s : string) : s ++ "" = s.
Proof. induction s; [reflexivity|]. rewrite str_app_cons, IHs. reflexivity. Qed.

Ltac ends H := apply endsWith_spec in H as [?p ->].

Lemma step1a_length (s : string) :
  (String.length (step1a s) <= String.length s /\ String.length s - 2 <= String.length (step1a s))%nat.
Proof.
  unfold step1a.
  destruct (endsWith s "sses") eqn:E1;
    [ends E1; rewrite replaceSuffix_app, !str_length_app; simpl; lia|].
  destruct (endsWith s "ies") eqn:E2;
    [ends E2; rewrite replaceSuffix_app, !str_length_app; simpl; lia|].
  destruct (endsWith s "ss") eqn:E3; [lia|].
  destruct (endsWith s "s") eqn:E4; [rewrite length_pop_back; lia|lia].
Qed.

Lemma step1b_fix_length (s : string) :
  (1 <= String.length s -> 1 <= String.length (step1b_fix s) <= String.length s + 1)%nat.
Proof.
  intros H. unfold step1b_fix.
  destruct (endsWith s "at" || endsWith s "bl" || endsWith s "iz")%bool;
    [rewrite str_length_app; simpl; lia|].
  destruct (endsWithDoubleConsonant s) eqn:E; simpl.
  - assert (2 <= String.length s)%nat.
    { unfold endsWithDoubleConsonant in E. destruct (Nat.ltb_spec (String.length s) 2); [discriminate|lia]. }
    destruct (negb (endsWith s "l") && negb (endsWith s "s") && negb (endsWith s "z"))%bool;
      [rewrite length_pop_back; lia|].
    destruct (Nat.eqb (measureConsecutiveVC s) 1 && endsWithCVC s)%bool; [rewrite str_length_app; simpl|]; lia.
  - destruct (Nat.eqb (measureConsecutiveVC s) 1 && endsWithCVC s)%bool; [rewrite str_length_app; simpl|]; lia.
Qed.

Lemma step1b_length (s : string) :
  (String.length (step1b s) <= String.length s /\
   (1 <= String.length s -> 1 <= String.length (step1b s)))%nat.
Proof.
  unfold step1b.
  destruct (endsWith s "eed") eqn:E1.
  - ends E1. destruct (Nat.ltb 0 _); [rewrite replaceSuffix_app|]; rewrite !str_length_app; simpl; lia.
  - destruct ((endsWith s "ed" && hasVowel (prefix_len s (String.length s - 2)))
              || (endsWith s "ing" && hasVowel (prefix_len s (String.length s - 3))))%bool eqn:C;
      [|lia].
    destruct (endsWith s "ed") eqn:E2.
    + assert (Hlen : (3 <= String.length s)%nat).
      { apply orb_true_iff in C as [C|C]; apply andb_true_iff in C as [_ C];
          apply hasVowel_length in C; rewrite length_prefix_len in C; lia. }
      ends E2. rewrite replaceSuffix_app, str_app_nil_r. rewrite str_length_app in Hlen |- *. simpl in Hlen |- *.
      pose proof (step1b_fix_length p ltac:(lia)). lia.
    + simpl in C. apply andb_true_iff in C as [E3 C]. apply hasVowel_length in C.
      rewrite length_prefix_len in C. ends E3. rewrite replaceSuffix_app, str_app_nil_r.
      rewrite str_length_app in C |- *. simpl in C |- *.
      pose proof (step1b_fix_length p ltac:(lia)). lia.
Qed.

Lemma step1c_length (s : string) : String.length (step1c s) = String.length s.
Proof.
  unfold step1c.
  destruct (endsWith s "y") eqn:E; simpl; [|reflexivity].
  destruct (hasVowel _); [|reflexivity]. ends E.
  rewrite !str_length_app, length_prefix_len, str_length_app. simpl. lia.
Qed.

Lemma stem_length (w : string) :
  (String.length (stem w) <= String.length w)%nat /\ (w <> "" -> stem w <> "").
Proof.
  unfold stem. destruct (Nat.leb_spec (String.length w) 2) as [Hle|Hgt]; [split; auto|].
  pose proof (step1a_length (lower w)) as [A1 A2].
  pose proof (step1b_length (step1a (lower w))) as [B1 B2].
  rewrite step1c_length. rewrite TextClaims.length_lower in A1, A2.
  specialize (B2 ltac:(lia)).
  split; [lia|]. intros _ E.
  assert (L : String.length (step1c (step1b (step1a (lower w)))) = 0%nat) by (rewrite E; reflexivity).
  rewrite step1c_length in L. lia.
Qed.

Lemma processWord_empty (w : string) :
  processWord w = "" <-> w = "" \/ isStopword w = true.
Proof.
  unfold processWord. destruct (isStopword w) eqn:S; [tauto|].
  split.
  - intros E. left. destruct (String.string_dec w ""); [assumption|].
    exfalso. apply (proj2 (stem_length w)); assumption.
  - intros [->|]; [reflexivity|discriminate].
Qed.

Lemma lower_app (a b : string) : lower (a ++ b) = lower a ++ lower b.
Proof. induction a; rewrite ?str_app_nil, ?str_app_cons; simpl; [reflexivity|]. rewrite IHa. reflexivity. Qed.

Lemma lower_substring (s : string) i n : lower (substring i n s) = substring i n (lower s).
Proof.
  revert i n. induction s as [|c s IH]; intros i n; simpl; [destruct i, n; reflexivity|].
  destruct i as [|i]; [destruct n as [|n]; simpl; [reflexivity|]|]; rewrite IH; reflexivity.
Qed.

Lemma lc_app (a b : string) : lower a = a -> lower b = b -> lower (a ++ b) = a ++ b.
Proof. intros Ha Hb. rewrite lower_app, Ha, Hb. reflexivity. Qed.

Lemma lc_prefix_len (s : string) m : lower s = s -> lower (prefix_len s m) = prefix_len s m.
Proof. intros H. unfold prefix_len. rewrite lower_substring, H. reflexivity. Qed.

Lemma lc_replaceSuffix (s suf r : string) :
  lower s = s -> lower r = r -> lower (replaceSuffix s suf r) = replaceSuffix s suf r.
Proof.
  intros Hs Hr. rewrite replaceSuffix_endsWith. destruct (endsWith s suf); [|exact Hs].
  apply lc_app; [apply lc_prefix_len|]; assumption.
Qed.

Lemma lc_step1a (s : string) : lower s = s -> lower (step1a s) = step1a s.
Proof.
  intros H. unfold step1a.
  repeat match goal with |- context [if ?c then _ else _] => destruct c end;
    try apply lc_replaceSuffix; try reflexivity; try assumption.
  apply lc_prefix_len. assumption.
Qed.

Lemma lc_step1b_fix (s : string) : lower s = s -> lower (step1b_fix s) = step1b_fix s.
Proof.
  intros H. unfold step1b_fix.
  repeat match goal with |- context [if ?c then _ else _] => destruct c end;
    try (apply lc_app; [assumption|reflexivity]); try assumption.
  apply lc_prefix_len. assumption.
Qed.

Lemma lc_step1b (s : string) : lower s = s -> lower (step1b s) = step1b s.
Proof.
  intros H. unfold step1b.
  destruct (endsWith s "eed").
  - destruct (Nat.ltb _ _); [apply lc_replaceSuffix; [assumption|reflexivity]|assumption].
  - destruct (_ || _)%bool; [|assumption].
    apply lc_step1b_fix. destruct (endsWith s "ed"); apply lc_replaceSuffix; auto.
Qed.

Lemma lc_step1c (s : string) : lower s = s -> lower (step1c s) = step1c s.
Proof.
  intros H. unfold step1c. destruct (_ && _)%bool; [|assumption].
  apply lc_app; [apply lc_prefix_len; assumption|reflexivity].
Qed.

Lemma lc_stem_long (w : string) : (2 < String.length w)%nat -> lower (stem w) = stem w.
Proof.
  intros H. unfold stem. destruct (Nat.leb_spec (String.length w) 2); [lia|].
  apply lc_step1c, lc_step1b, lc_step1a, lower_lower.
Qed.

Lemma lc_processWord (t : string) : lower t = t -> lower (processWord t) = processWord t.
Proof.
  intros H. unfold processWord. destruct (isStopword t); [reflexivity|].
  unfold stem. destruct (Nat.leb (String.length t) 2); [assumption|].
  apply lc_step1c, lc_step1b, lc_step1a, lower_lower.
Qed.

(** X16: [stem] never makes a word longer and never turns a non-empty
    word into the empty string; [processWord] never makes a word longer. *)
Theorem X_stem_never_longer (w : string) :
  String.length (stem w) <= String.length w /\ (w <> "" -> stem w <> "") /\
  String.length (processWord w) <= String.length w.
Proof.
  destruct (stem_length w) as [H1 H2]. split; [exact H1|]. split; [exact H2|].
  unfold processWord. destruct (isStopword w); simpl; lia.
Qed.

(** X17: [processWord] returns the empty string exactly for the empty
    word and for the stopwords. *)
Theorem X_processWord_empty_iff (w : string) :
  processWord w = "" <-> w = "" \/ isStopword w = true.
Proof. apply processWord_empty. Qed.

(** X18: for a word of more than two characters, [stem] and [processWord]
    return lowercase strings, whatever the case of the input. *)
Theorem X_stem_lowercase (w : string) :
  2 < String.length w -> lower (stem w) = stem w /\ lower (processWord w) = processWord w.
Proof.
  intros H. split; [apply lc_stem_long; exact H|].
  unfold processWord. destruct (isStopword w); [reflexivity|]. apply lc_stem_long. exact H.
Qed.

Lemma X_stem_lowercase_witness :
  2 < String.length "Running" /\
  lower (stem "Running") = stem "Running" /\ lower (processWord "Running") = processWord "Running".
Proof. split; [simpl; lia|]. apply X_stem_lowercase. simpl. lia. Defined.

End TextExtras.

Module WordMapExtras.

Import AVL AVLFacts Persist WordMap.

Lemma pm_get_set (m : pmap) k v k' :
  pm_get (pm_set m k v) k' = if String.eqb k k' then v else pm_get m k'.
Proof.
  induction m as [|[k0 v0] m IH]; simpl.
  - destruct (String.eqb k k'); reflexivity.
  - destruct (String.eqb_spec k0 k) as [<-|Hne]; simpl.
    + destruct (String.eqb k0 k'); reflexivity.
    + rewrite IH. destruct (String.eqb_spec k0 k') as [<-|Hne']; [|reflexivity].
      destruct (String.eqb_spec k k0); [congruence|reflexivity].
Qed.

Lemma pm_get_incr (m : pmap) fp f :
  pm_get (pm_incr m fp) f = pm_get m f + (if String.eqb fp f then 1 else 0).
Proof.
  unfold pm_incr. rewrite pm_get_set. destruct (String.eqb_spec fp f) as [<-|]; lia.
Qed.

Lemma find_files_associate (idx : avl pmap) key fp key' :
  bst idx ->
  find_files (insert idx key (pm_incr (find_files idx key) fp)) key' =
  if String.eqb key key' then pm_incr (find_files idx key') fp else find_files idx key'.
Proof.
  intros Hb. unfold find_files at 1. rewrite find_insert by assumption.
  destruct (String.eqb_spec key key') as [<-|]; reflexivity.
Qed.

Lemma count_associate (idx : avl pmap) key fp key' f :
  bst idx ->
  pm_get (find_files (insert idx key (pm_incr (find_files idx key) fp)) key') f =
  pm_get (find_files idx key') f + (if String.eqb key key' && String.eqb fp f then 1 else 0).
Proof.
  intros Hb. rewrite find_files_associate by assumption.
  destruct (String.eqb key key'); simpl; [apply pm_get_incr|lia].
Qed.

Lemma insert_keeps_balanced {T} (t : avl T) k v : balanced t -> balanced (insert t k v).
Proof. intros Hb. apply (insert_balanced T t k v Hb). Qed.

Lemma index_ok_associate wm key fp :
  index_ok wm ->
  index_ok (associateOrg wm key fp) /\ index_ok (associateName wm key fp) /\
  index_ok (associateWord wm key fp).
Proof.
  intros (Ho1 & Ho2 & Hn1 & Hn2 & Hw1 & Hw2).
  unfold associateOrg, associateName, associateWord, index_ok.
  destruct (String.eqb key EmptyString); cbn [orgIndex nameIndex wordIndex];
    repeat split; first [assumption | apply insert_keeps_balanced; assumption
                        | apply insert_bst; assumption | idtac].
  all: unfold index_ok in *; tauto.
Qed.

Lemma find_in_keys {T} (t : avl T) k v : find t k = Some v -> In k (keys t).
Proof.
  induction t as [|l IHl k0 v0 h r IHr]; simpl; [discriminate|].
  rewrite in_app_iff. simpl.
  destruct (String.eqb_spec k0 k); [auto|]. destruct (key_lt k k0); auto.
Qed.

Lemma find_files_not_in (idx : avl pmap) k : ~ In k (keys idx) -> find_files idx k = [].
Proof.
  intros Hn. unfold find_files. destruct (find idx k) eqn:E; [|reflexivity].
  apply find_in_keys in E. contradiction.
Qed.

Lemma index_orgs_frame wm fp ws :
  nameIndex (index_orgs wm fp ws) = nameIndex wm /\ wordIndex (index_orgs wm fp ws) = wordIndex wm.
Proof.
  unfold index_orgs. revert wm. induction ws as [|w ws IH]; intros wm; simpl; [auto|].
  rewrite !(proj1 (IH _)), !(proj2 (IH _)). auto.
Qed.

Lemma index_names_frame wm fp ws :
  orgIndex (index_names wm fp ws) = orgIndex wm /\ wordIndex (index_names wm fp ws) = wordIndex wm.
Proof.
  unfold index_names. revert wm. induction ws as [|w ws IH]; intros wm; simpl; [auto|].
  rewrite !(proj1 (IH _)), !(proj2 (IH _)). auto.
Qed.

Lemma index_body_words_frame wm fp ws :
  orgIndex (index_body_words wm fp ws) = orgIndex wm /\
  nameIndex (index_body_words wm fp ws) = nameIndex wm.
Proof.
  unfold index_body_words. revert wm. induction ws as [|w ws IH]; intros wm; simpl; [auto|].
  rewrite !(proj1 (IH _)), !(proj2 (IH _)).
  destruct (negb (String.eqb (Text.processWord w) EmptyString)); [|auto].
  unfold associateWord. destruct (String.eqb (Text.processWord w) EmptyString); auto.
Qed.

Lemma index_ok_index_file wm d : index_ok wm -> index_ok (index_file wm d).
Proof.
  intros H. unfold index_file, index_body_words, index_names, index_orgs.
  set (fp := filePath d).
  assert (Hf : forall (g : WordMap -> string -> WordMap) ws wm,
             (forall wm x, index_ok wm -> index_ok (g wm x)) ->
             index_ok wm -> index_ok (fold_left g ws wm)).
  { intros g ws. induction ws as [|x ws IH]; intros wm0 Hg H0; simpl; auto. }
  apply Hf; [|apply Hf; [|apply Hf; [|exact H]]].
  - intros wm0 x H0. destruct (negb _); [apply index_ok_associate; exact H0|exact H0].
  - intros wm0 x H0. apply index_ok_associate; exact H0.
  - intros wm0 x H0. apply index_ok_associate; exact H0.
Qed.

Lemma index_ok_build wm ds : index_ok wm -> index_ok (buildFromScratch wm ds).
Proof.
  unfold buildFromScratch. revert wm. induction ds as [|d ds IH]; intros wm H; simpl; auto.
  apply IH, index_ok_index_file, H.
Qed.

Lemma occurrences_cons norm key x xs :
  occurrences norm key (x :: xs) = (if String.eqb (norm x) key then 1 else 0) + occurrences norm key xs.
Proof. unfold occurrences. cbn [List.filter]. destruct (String.eqb (norm x) key); cbn [length]; lia. Qed.

Lemma index_orgs_count wm fp ws o f :
  bst (orgIndex wm) ->
  pm_get (getFilesByOrg (index_orgs wm fp ws) o) f =
  pm_get (getFilesByOrg wm o) f + (if String.eqb fp f then occurrences Text.lower o ws else 0).
Proof.
  unfold index_orgs. revert wm. induction ws as [|x ws IH]; intros wm Hb; simpl.
  - unfold occurrences. simpl. destruct (String.eqb fp f); lia.
  - rewrite IH by (apply insert_bst; exact Hb).
    unfold getFilesByOrg, associateOrg. cbn [orgIndex]. rewrite count_associate by exact Hb.
    rewrite occurrences_cons.
    destruct (String.eqb (Text.lower x) o), (String.eqb fp f); simpl; lia.
Qed.

Lemma index_names_count wm fp ws o f :
  bst (nameIndex wm) ->
  pm_get (getFilesByName (index_names wm fp ws) o) f =
  pm_get (getFilesByName wm o) f + (if String.eqb fp f then occurrences Text.lower o ws else 0).
Proof.
  unfold index_names. revert wm. induction ws as [|x ws IH]; intros wm Hb; simpl.
  - unfold occurrences. simpl. destruct (String.eqb fp f); lia.
  - rewrite IH by (apply insert_bst; exact Hb).
    unfold getFilesByName, associateName. cbn [nameIndex]. rewrite count_associate by exact Hb.
    rewrite occurrences_cons.
    destruct (String.eqb (Text.lower x) o), (String.eqb fp f); simpl; lia.
Qed.

Lemma index_words_count wm fp ws t f :
  t <> EmptyString -> bst (wordIndex wm) ->
  pm_get (getFilesByWord (index_body_words wm fp ws) t) f =
  pm_get (getFilesByWord wm t) f + (if String.eqb fp f then occurrences Text.processWord t ws else 0).
Proof.
  intros Ht. unfold index_body_words. revert wm. induction ws as [|x ws IH]; intros wm Hb; simpl.
  - unfold occurrences. simpl. destruct (String.eqb fp f); lia.
  - rewrite occurrences_cons.
    destruct (String.eqb_spec (Text.processWord x) EmptyString) as [E|E]; simpl.
    + rewrite IH by exact Hb. rewrite E. destruct (String.eqb_spec EmptyString t); [congruence|].
      destruct (String.eqb fp f); lia.
    + unfold associateWord at 1 2. rewrite (proj2 (String.eqb_neq _ _) E).
      rewrite IH by (apply insert_bst; exact Hb).
      unfold getFilesByWord. cbn [wordIndex]. rewrite count_associate by exact Hb.
      destruct (String.eqb (Text.processWord x) t), (String.eqb fp f); simpl; lia.
Qed.

Lemma index_ok_empty : index_ok empty_wordmap.
Proof. repeat split; constructor. Qed.

Lemma index_ok_orgs wm fp ws : index_ok wm -> index_ok (index_orgs wm fp ws).
Proof.
  unfold index_orgs. revert wm. induction ws; intros wm H; simpl; auto.
  apply IHws, index_ok_associate, H.
Qed.

Lemma index_ok_names wm fp ws : index_ok wm -> index_ok (index_names wm fp ws).
Proof.
  unfold index_names. revert wm. induction ws; intros wm H; simpl; auto.
  apply IHws, index_ok_associate, H.
Qed.

Lemma file_count_cons sel norm key f d ds :
  file_count sel norm key f (d :: ds) =
  (if String.eqb (filePath d) f then occurrences norm key (sel d) else 0) + file_count sel norm key f ds.
Proof. reflexivity. Qed.

Lemma build_counts wm ds key f :
  index_ok wm ->
  pm_get (getFilesByOrg (buildFromScratch wm ds) key) f =
    pm_get (getFilesByOrg wm key) f + file_count orgWords Text.lower key f ds /\
  pm_get (getFilesByName (buildFromScratch wm ds) key) f =
    pm_get (getFilesByName wm key) f + file_count nameWords Text.lower key f ds /\
  (key <> EmptyString ->
   pm_get (getFilesByWord (buildFromScratch wm ds) key) f =
     pm_get (getFilesByWord wm key) f + file_count bodyWords Text.processWord key f ds).
Proof.
  unfold buildFromScratch. revert wm. induction ds as [|d ds IH]; intros wm Hok; cbn [fold_left].
  - repeat split; intros; unfold file_count; simpl; lia.
  - destruct (IH (index_file wm d) (index_ok_index_file wm d Hok)) as (Ho & Hn & Hw).
    assert (Hok1 : index_ok (index_orgs wm (filePath d) (orgWords d))) by (apply index_ok_orgs; exact Hok).
    assert (Hok2 : index_ok (index_names (index_orgs wm (filePath d) (orgWords d))
                               (filePath d) (nameWords d))) by (apply index_ok_names; exact Hok1).
    split; [|split]; [rewrite Ho|rewrite Hn|intros Hk; rewrite (Hw Hk)];
      rewrite !file_count_cons; unfold index_file.
    + unfold getFilesByOrg at 1. rewrite (proj1 (index_body_words_frame _ _ _)).
      rewrite (proj1 (index_names_frame _ _ _)). fold (getFilesByOrg (index_orgs wm (filePath d) (orgWords d)) key).
      rewrite index_orgs_count by (apply Hok). lia.
    + unfold getFilesByName at 1. rewrite (proj2 (index_body_words_frame _ _ _)).
      fold (getFilesByName (index_names (index_orgs wm (filePath d) (orgWords d)) (filePath d) (nameWords d)) key).
      rewrite index_names_count by (apply Hok1).
      unfold getFilesByName at 1. rewrite (proj1 (index_orgs_frame _ _ _)).
      fold (getFilesByName wm key). lia.
    + rewrite index_words_count by (try exact Hk; apply Hok2).
      unfold getFilesByWord at 1. rewrite (proj2 (index_names_frame _ _ _)).
      rewrite (proj2 (index_orgs_frame _ _ _)). fold (getFilesByWord wm key). lia.
Qed.

Lemma keys_shape_index_file wm d : keys_shape wm -> keys_shape (index_file wm d).
Proof.
  unfold index_file, index_body_words, index_names, index_orgs.
  assert (Hf : forall (g : WordMap -> string -> WordMap) ws wm,
             (forall wm x, keys_shape wm -> keys_shape (g wm x)) ->
             keys_shape wm -> keys_shape (fold_left g ws wm)).
  { intros g ws. induction ws as [|x ws IH]; intros wm0 Hg H0; simpl; auto. }
  intros H. apply Hf; [|apply Hf; [|apply Hf; [|exact H]]].
  - intros wm0 x (Ho & Hn & Hw).
    destruct (negb (String.eqb (Text.processWord x) EmptyString)) eqn:E; [|repeat split; assumption].
    unfold associateWord. destruct (String.eqb_spec (Text.processWord x) EmptyString) as [E'|E'];
      [repeat split; assumption|].
    repeat split; cbn [orgIndex nameIndex wordIndex]; try assumption.
    intros k Hk. apply in_keys_insert in Hk as [->|Hk]; auto.
  - intros wm0 x (Ho & Hn & Hw). repeat split; cbn [orgIndex nameIndex wordIndex]; try assumption.
    intros k Hk. apply in_keys_insert in Hk as [->|Hk]; [apply TextExtras.lower_lower|auto].
  - intros wm0 x (Ho & Hn & Hw). repeat split; cbn [orgIndex nameIndex wordIndex]; try assumption.
    intros k Hk. apply in_keys_insert in Hk as [->|Hk]; [apply TextExtras.lower_lower|auto].
Qed.

Lemma keys_shape_build wm ds : keys_shape wm -> keys_shape (buildFromScratch wm ds).
Proof.
  unfold buildFromScratch. revert wm. induction ds as [|d ds IH]; intros wm H; simpl; auto.
  apply IH, keys_shape_index_file, H.
Qed.


(** X9: [associateOrg], [associateName] and [associateWord] add one to the
    count of the given file under the given key and change no other count;
    [associateWord] ignores the empty key. *)
Theorem X_associate_counts (wm : WordMap) (key fp key' f : string) :
  index_ok wm ->
  pm_get (getFilesByOrg (associateOrg wm key fp) key') f =
    pm_get (getFilesByOrg wm key') f + (if String.eqb key key' && String.eqb fp f then 1 else 0) /\
  pm_get (getFilesByName (associateName wm key fp) key') f =
    pm_get (getFilesByName wm key') f + (if String.eqb key key' && String.eqb fp f then 1 else 0) /\
  pm_get (getFilesByWord (associateWord wm key fp) key') f =
    pm_get (getFilesByWord wm key') f +
    (if negb (String.eqb key EmptyString) && String.eqb key key' && String.eqb fp f then 1 else 0).
Proof.
  intros (Ho1 & Ho2 & Hn1 & Hn2 & Hw1 & Hw2).
  split; [|split].
  - unfold getFilesByOrg, associateOrg. cbn [orgIndex]. apply count_associate. exact Ho2.
  - unfold getFilesByName, associateName. cbn [nameIndex]. apply count_associate. exact Hn2.
  - unfold getFilesByWord, associateWord.
    destruct (String.eqb key EmptyString); cbn [negb andb]; [lia|].
    cbn [wordIndex]. apply count_associate. exact Hw2.
Qed.

Lemma X_associate_counts_witness :
  index_ok empty_wordmap /\
  pm_get (getFilesByWord (associateWord empty_wordmap "stock" "a.json") "stock") "a.json" =
    pm_get (getFilesByWord empty_wordmap "stock") "a.json" +
    (if negb (String.eqb "stock" EmptyString) && String.eqb "stock" "stock" && String.eqb "a.json" "a.json"
     then 1 else 0).
Proof.
  split; [exact index_ok_empty|].
  exact (proj2 (proj2 (X_associate_counts empty_wordmap "stock" "a.json" "stock" "a.json" index_ok_empty))).
Defined.

(** X10: the three indices stay balanced AVL search trees through
    [associateOrg], [associateName], [associateWord] and a whole
    [buildFromScratch]. *)
Theorem X_index_ok_preserved (wm : WordMap) (key fp : string) (ds : list FileData) :
  index_ok wm ->
  index_ok (associateOrg wm key fp) /\ index_ok (associateName wm key fp) /\
  index_ok (associateWord wm key fp) /\ index_ok (buildFromScratch wm ds).
Proof.
  intros H. destruct (index_ok_associate wm key fp H) as (A & B & C).
  split; [exact A|]. split; [exact B|]. split; [exact C|]. apply index_ok_build. exact H.
Qed.

Lemma X_index_ok_preserved_witness :
  index_ok empty_wordmap /\
  index_ok (buildFromScratch empty_wordmap
              [mkFileData "a.json" ["Apple"] ["Tim Cook"] ["Stocks"; "rose"]]).
Proof.
  split; [exact index_ok_empty|].
  exact (proj2 (proj2 (proj2 (X_index_ok_preserved empty_wordmap "apple" "a.json"
           [mkFileData "a.json" ["Apple"] ["Tim Cook"] ["Stocks"; "rose"]] index_ok_empty)))).
Defined.

(** X11: after [buildFromScratch] on an empty map, the count of a file
    under an organisation (or name) key is the number of that file's
    organisation (or name) entries whose lowercase form is the key,
    summed over every entry given for that file path. *)
Theorem X_build_counts (ds : list FileData) (key f : string) :
  pm_get (getFilesByOrg (buildFromScratch empty_wordmap ds) key) f =
    file_count orgWords Text.lower key f ds /\
  pm_get (getFilesByName (buildFromScratch empty_wordmap ds) key) f =
    file_count nameWords Text.lower key f ds.
Proof.
  destruct (build_counts empty_wordmap ds key f index_ok_empty) as (Ho & Hn & _).
  rewrite Ho, Hn. split; reflexivity.
Qed.

(** X12: after [buildFromScratch] on an empty map, the count of a file
    under a non-empty word key is the number of that file's body words
    whose [processWord] form is the key. *)
Theorem X_build_word_counts (ds : list FileData) (t f : string) :
  t <> EmptyString ->
  pm_get (getFilesByWord (buildFromScratch empty_wordmap ds) t) f =
    file_count bodyWords Text.processWord t f ds.
Proof.
  intros Ht. destruct (build_counts empty_wordmap ds t f index_ok_empty) as (_ & _ & Hw).
  rewrite (Hw Ht). reflexivity.
Qed.

Lemma X_build_word_counts_witness :
  "stock" <> EmptyString /\
  pm_get (getFilesByWord (buildFromScratch empty_wordmap
            [mkFileData "a.json" ["Apple"] ["Tim Cook"] ["Stocks"; "stocks"; "rose"]]) "stock") "a.json" =
    file_count bodyWords Text.processWord "stock" "a.json"
      [mkFileData "a.json" ["Apple"] ["Tim Cook"] ["Stocks"; "stocks"; "rose"]].
Proof. split; [discriminate|]. apply X_build_word_counts. discriminate. Defined.

(** X13: after [buildFromScratch] on an empty map, looking up an
    organisation or name key that is not all lowercase finds no files. *)
Theorem X_build_key_shape (ds : list FileData) (k : string) :
  Text.lower k <> k ->
  getFilesByOrg (buildFromScratch empty_wordmap ds) k = [] /\
  getFilesByName (buildFromScratch empty_wordmap ds) k = [].
Proof.
  intros Hk. destruct (keys_shape_build empty_wordmap ds) as (Ho & Hn & _);
    [repeat split; simpl; tauto|].
  split; apply find_files_not_in; intros Hin; apply Hk; auto.
Qed.

Lemma X_build_key_shape_witness :
  Text.lower "Apple" <> "Apple" /\
  getFilesByOrg (buildFromScratch empty_wordmap
                   [mkFileData "a.json" ["Apple"] ["Tim Cook"] ["Stocks"]]) "Apple" = [] /\
  getFilesByName (buildFromScratch empty_wordmap
                   [mkFileData "a.json" ["Apple"] ["Tim Cook"] ["Stocks"]]) "Apple" = [].
Proof. split; [discriminate|]. apply X_build_key_shape. discriminate. Defined.

(** X14: after [buildFromScratch] on an empty map, the word index has no
    entry for the empty string: [""] is not among its keys and [find]
    returns no node for it, so words that [processWord] drops are never
    indexed. *)
Theorem X_build_no_empty_word (ds : list FileData) :
  ~ In EmptyString (keys (wordIndex (buildFromScratch empty_wordmap ds))) /\
  find (wordIndex (buildFromScratch empty_wordmap ds)) EmptyString = None.
Proof.
  destruct (keys_shape_build empty_wordmap ds) as (_ & _ & Hw); [repeat split; simpl; tauto|].
  assert (Hn : ~ In EmptyString (keys (wordIndex (buildFromScratch empty_wordmap ds))))
    by (intros Hin; apply (Hw _ Hin); reflexivity).
  split; [exact Hn|].
  destruct (find _ EmptyString) eqn:E; [|reflexivity].
  apply find_in_keys in E. contradiction.
Qed.

End WordMapExtras.

Module ParseExtras.

Import Parse TextExtras.
Local Open Scope string_scope.

Lemma is_space_tolower c : is_space (Text.tolower c) = is_space c.
Proof. destruct c as [[] [] [] [] [] [] [] []]; reflexivity. Qed.

Lemma eqb_empty_lower (s : string) : String.eqb (Text.lower s) "" = String.eqb s "".
Proof. destruct s; reflexivity. Qed.

Lemma split_ws_from_lower (s cur : string) :
  split_ws_from (Text.lower s) (Text.lower cur) = List.map Text.lower (split_ws_from s cur).
Proof.
  revert cur. induction s as [|c s IH]; intros cur; simpl.
  - rewrite eqb_empty_lower. destruct (String.eqb cur ""); reflexivity.
  - rewrite is_space_tolower. destruct (is_space c).
    + rewrite eqb_empty_lower. destruct (String.eqb cur "").
      * apply (IH "").
      * simpl. f_equal. apply (IH "").
    + rewrite <- IH. f_equal. rewrite lower_app. reflexivity.
Qed.

Lemma classify_lower (tok : string) : classify_spec (Text.lower tok) = classify_spec tok.
Proof. unfold classify_spec. rewrite lower_lower. reflexivity. Qed.

(** X20: [parse] ignores letter case: parsing the lowercased query gives
    the same set of terms as parsing the query. *)
Theorem X_parse_case_insensitive (s : string) : parse (Text.lower s) = parse s.
Proof.
  rewrite !ParseClaims.parse_as_set. unfold parse_spec, split_ws.
  change "" with (Text.lower "") at 1. rewrite split_ws_from_lower.
  apply set_eq. intros x. rewrite !elem_of_list_to_set, !list_elem_of_omap.
  split; intros (y & Hy & Hc); apply list_elem_of_In in Hy.
  - apply in_map_iff in Hy as (t & <- & Ht). exists t.
    rewrite classify_lower in Hc. split; [apply list_elem_of_In; exact Ht|exact Hc].
  - exists (Text.lower y). rewrite classify_lower. split; [|exact Hc].
    apply list_elem_of_In, in_map. exact Hy.
Qed.

Lemma classify_spec_shape (tok x : string) :
  classify_spec tok = Some x -> x <> "" /\ Text.lower x = x.
Proof.
  unfold classify_spec. set (t := Text.lower tok).
  assert (Ht : Text.lower t = t) by apply lower_lower. clearbody t.
  destruct (String.prefix "org:" t || String.prefix "person:" t)%bool eqn:P.
  - intros [= <-]. split; [|exact Ht]. intros ->. discriminate.
  - destruct t as [|c rest].
    + discriminate.
    + destruct (Ascii.eqb c "-"%char) eqn:Ec.
      * destruct (String.eqb_spec (Text.processWord rest) "") as [E|E]; [discriminate|].
        intros [= <-]. split; [discriminate|].
        apply Ascii.eqb_eq in Ec. subst c. simpl in Ht. injection Ht as Hrest.
        rewrite lower_app, lc_processWord by exact Hrest. reflexivity.
      * destruct (String.eqb_spec (Text.processWord (String c rest)) "") as [E|E]; [discriminate|].
        intros [= <-]. split; [exact E|]. apply lc_processWord. exact Ht.
Qed.

(** X19: every term in the set [parse] returns is non-empty and all
    lowercase. *)
Theorem X_parse_terms (s x : string) :
  x ∈ parse s -> x <> "" /\ Text.lower x = x.
Proof.
  rewrite ParseClaims.parse_as_set. unfold parse_spec.
  rewrite elem_of_list_to_set, list_elem_of_omap. intros (tok & _ & Hc).
  eapply classify_spec_shape. exact Hc.
Qed.

Lemma X_parse_terms_witness :
  "-stock" ∈ parse "Apple -Stocks" /\ "-stock" <> "" /\ Text.lower "-stock" = "-stock".
Proof.
  assert (H : "-stock" ∈ parse "Apple -Stocks") by (vm_compute; set_solver).
  split; [exact H|]. apply (X_parse_terms "Apple -Stocks" "-stock"). exact H.
Defined.

Lemma no_space_snoc (cur : string) c :
  no_space cur -> is_space c = false -> no_space (cur ++ String c "").
Proof.
  unfold no_space. induction cur as [|a cur IH]; intros H Hc; simpl.
  - constructor; [exact Hc|constructor].
  - inversion H; subst. constructor; [assumption|]. apply IH; assumption.
Qed.

Lemma split_ws_from_tokens (s cur t : string) :
  no_space cur -> In t (split_ws_from s cur) -> t <> "" /\ no_space t.
Proof.
  revert cur. induction s as [|c s IH]; intros cur Hcur; simpl.
  - destruct (String.eqb_spec cur ""); [intros []|].
    intros [<-|[]]. auto.
  - destruct (is_space c) eqn:Hc.
    + destruct (String.eqb_spec cur "").
      * apply IH. constructor.
      * intros [<-|Hin]; [auto|]. apply (IH ""); [constructor|exact Hin].
    + apply IH. apply no_space_snoc; assumption.
Qed.

(** X21: every token [split_ws] returns is non-empty and contains no
    whitespace character. *)
Theorem X_split_ws_tokens (s t : string) :
  In t (split_ws s) -> t <> "" /\ no_space t.
Proof. apply split_ws_from_tokens. constructor. Qed.

Lemma X_split_ws_tokens_witness :
  In "bc" (split_ws " a  bc ") /\ "bc" <> "" /\ no_space "bc".
Proof.
  assert (H : In "bc" (split_ws " a  bc ")) by (vm_compute; tauto).
  split; [exact H|]. exact (X_split_ws_tokens " a  bc " "bc" H).
Defined.

End ParseExtras.
